(** * Archives Lite: favorites store, filter and sort, pagination, photo detail

    A shallow embedding of the view logic of the Archives Lite gallery
    (src/pages/Gallery.tsx, src/pages/Favorites.tsx, src/pages/PhotoDetail.tsx)
    together with the properties its specification states about it.

    Conventions of the embedding.
    - JavaScript strings are [string]s; one [ascii] stands for one code unit.
      Case folding and white space are the ASCII ones.
    - JavaScript numbers are exact rationals ([Q]) with [NaN] and the two
      infinities added where the source can produce them; rounding, overflow
      and underflow of IEEE doubles are not represented.
    - Values that come from JSON are [JSON.value]s; [JSON.parse] and
      [JSON.stringify] are functions on text. The favorites map holds such
      values: TypeScript types are not checked at run time.
    - Objects used as dictionaries are [gmap]s; arrays are [list]s, and
      where identity matters cells of a heap. React state is a record that
      every handler and effect maps to the next record; a fetch is a request
      in flight whose completion is an event.
    - Rendering, the debounce timer, downloads and dialogs are not part of
      the model. *)

From Stdlib Require Import ZArith QArith Qreduction Ascii String List.
From Stdlib Require Import Sorted Permutation Lia.
From stdpp Require Import base option list gmap strings.

Set Warnings "-register-all".
Close Scope Q_scope.
Open Scope string_scope.
Open Scope list_scope.

(** ** JavaScript built-ins used by the pages *)

Module JS.

Definition code (c : ascii) : N := N_of_ascii c.

Definition isUpper (c : ascii) : bool :=
  ((65 <=? code c) && (code c <=? 90))%N.

Definition lowerChar (c : ascii) : ascii :=
  if isUpper c then ascii_of_N (code c + 32) else c.

(** [String.prototype.toLowerCase] *)
Fixpoint toLowerCase (s : string) : string :=
  match s with
  | EmptyString => EmptyString
  | String c r => String (lowerChar c) (toLowerCase r)
  end.

(** [s.includes(sub)]: [sub] occurs in [s] at some position. *)
Fixpoint includes (s sub : string) : bool :=
  String.prefix sub s ||
  match s with
  | EmptyString => false
  | String _ r => includes r sub
  end.

(** White space removed by [trim] and skipped by [Number]. *)
Definition isWhiteSpace (c : ascii) : bool :=
  ((9 <=? code c) && (code c <=? 13) || (code c =? 32))%N.

Fixpoint trimStart (s : string) : string :=
  match s with
  | EmptyString => EmptyString
  | String c r => if isWhiteSpace c then trimStart r else s
  end.

Fixpoint trimEnd (s : string) : string :=
  match s with
  | EmptyString => EmptyString
  | String c r =>
      match trimEnd r with
      | EmptyString => if isWhiteSpace c then EmptyString else String c EmptyString
      | r' => String c r'
      end
  end.

(** [String.prototype.trim] *)
Definition trim (s : string) : string := trimEnd (trimStart s).

(** Truthiness of a string: [""] is the only falsy one. *)
Definition nonEmpty (s : string) : bool :=
  match s with EmptyString => false | _ => true end.

(** *** Numbers *)

Inductive number : Type :=
| NaN
| Infinity (negative : bool)
| Finite (q : Q).

Definition ofZ (z : Z) : number := Finite (inject_Z z).

(** [Number.isFinite] *)
Definition isFinite (x : number) : bool :=
  match x with Finite _ => true | _ => false end.

(** [x <= 0]; every comparison with [NaN] is false. *)
Definition leZero (x : number) : bool :=
  match x with
  | NaN => false
  | Infinity negative => negative
  | Finite q => (Qnum q <=? 0)%Z
  end.

(** [x === y] on numbers. *)
Definition strictEq (x y : number) : bool :=
  match x, y with
  | Finite p, Finite q => Qeq_bool p q
  | Infinity a, Infinity b => Bool.eqb a b
  | _, _ => false
  end.

(** [Object.is(x, y)] on numbers, the comparison React makes between the
    dependencies of an effect: as [===], but [NaN] is itself. (The two
    zeros, which [Object.is] tells apart, are one number here.) *)
Definition Object_is (x y : number) : bool :=
  match x, y with
  | NaN, NaN => true
  | _, _ => strictEq x y
  end.

(** Truthiness of a number: [0] and [NaN] are falsy. *)
Definition numberTruthy (x : number) : bool :=
  match x with
  | NaN => false
  | Infinity _ => true
  | Finite q => negb (Qnum q =? 0)%Z
  end.

(** Value of a digit in the given radix. *)
Definition digitValue (radix : N) (c : ascii) : option Z :=
  let n := code c in
  let v := (if (48 <=? n) && (n <=? 57) then Some (n - 48)
            else if (97 <=? n) && (n <=? 122) then Some (n - 87)
            else if (65 <=? n) && (n <=? 90) then Some (n - 55)
            else None)%N in
  match v with
  | Some d => if (d <? radix)%N then Some (Z.of_N d) else None
  | None => None
  end.

(** Reads the longest run of digits: the value read so far, how many
    digits were read, and the rest of the input. *)
Fixpoint readDigits (radix : N) (acc : Z) (count : nat) (s : list ascii)
  : Z * nat * list ascii :=
  match s with
  | c :: r =>
      match digitValue radix c with
      | Some d => readDigits radix (acc * Z.of_N radix + d) (S count) r
      | None => (acc, count, s)
      end
  | [] => (acc, count, s)
  end.

(** [m * 10^e] as an exact rational in lowest terms. *)
Definition scale10 (m e : Z) : Q :=
  if (0 <=? e)%Z then inject_Z (m * 10 ^ e)
  else Qred (Qmake m (Pos.pow 10 (Z.to_pos (- e)))).

(** An optional exponent part [e], [e+] or [e-] followed by digits. *)
Definition readExponent (s : list ascii) : option (Z * list ascii) :=
  match s with
  | c :: r =>
      if (c =? "e")%char || (c =? "E")%char then
        let '(neg, r1) :=
          match r with
          | d :: r' =>
              if (d =? "-")%char then (true, r')
              else if (d =? "+")%char then (false, r')
              else (false, r)
          | [] => (false, r)
          end in
        match readDigits 10 0 0 r1 with
        | (_, O, _) => None
        | (e, _, rest) => Some (if neg then (- e)%Z else e, rest)
        end
      else Some (0%Z, s)
  | [] => Some (0%Z, s)
  end.

(** A literal with a radix prefix: [0x], [0o] or [0b] and at least one
    digit. [None] when the input has no such prefix. *)
Definition radixLiteral (t : list ascii) : option number :=
  match t with
  | z :: x :: r =>
      let radix :=
        if (x =? "x")%char || (x =? "X")%char then Some 16%N
        else if (x =? "o")%char || (x =? "O")%char then Some 8%N
        else if (x =? "b")%char || (x =? "B")%char then Some 2%N
        else None in
      match (z =? "0")%char, radix with
      | true, Some rd =>
          match readDigits rd 0 0 r with
          | (v, S _, []) => Some (ofZ v)
          | _ => Some NaN
          end
      | _, _ => None
      end
  | _ => None
  end.

Definition infinityText : list ascii := list_ascii_of_string "Infinity".

(** A signed decimal literal: digits with an optional fraction and an
    optional exponent, or [Infinity]; anything else is [NaN]. *)
Definition decimalLiteral (t : list ascii) : number :=
  let '(neg, u) :=
    match t with
    | c :: r =>
        if (c =? "-")%char then (true, r)
        else if (c =? "+")%char then (false, r)
        else (false, t)
    | [] => (false, t)
    end in
  if bool_decide (u = infinityText) then Infinity neg
  else
    let '(ip, ni, r1) := readDigits 10 0 0 u in
    let '(m, nf, r2) :=
      match r1 with
      | c :: r => if (c =? ".")%char then readDigits 10 ip 0 r else (ip, O, r1)
      | [] => (ip, O, r1)
      end in
    match (ni + nf)%nat, readExponent r2 with
    | S _, Some (e, []) =>
        Finite (scale10 (if neg then - m else m) (e - Z.of_nat nf))
    | _, _ => NaN
    end.

(** The conversion of a string to a number: surrounding white space is
    dropped, the empty string is [0]. *)
Definition StringToNumber (s : string) : number :=
  match list_ascii_of_string (trim s) with
  | [] => ofZ 0
  | t =>
      match radixLiteral t with
      | Some x => x
      | None => decimalLiteral t
      end
  end.

(** [Number(v)] for a route or query parameter, which is a string or
    [undefined]. *)
Definition Number (v : option string) : number :=
  match v with
  | None => NaN
  | Some s => StringToNumber s
  end.

(** *** Arrays *)

Section Sort.
Context {A : Type} (compareFn : A → A → Z).

(** Puts [x] in front of the first element it does not come after. *)
Fixpoint insertSorted (x : A) (l : list A) : list A :=
  match l with
  | [] => [x]
  | y :: r =>
      if (compareFn x y <=? 0)%Z then x :: l else y :: insertSorted x r
  end.

(** [Array.prototype.sort(compareFn)]: a stable sort; elements that
    compare equal keep the order they had. For a consistent comparator
    every stable sort gives this same result. *)
Fixpoint sort (l : list A) : list A :=
  match l with
  | [] => []
  | x :: r => insertSorted x (sort r)
  end.
End Sort.

End JS.

(** ** JSON values, [JSON.parse] *)

Module JSON.

Inductive value : Type :=
| JNull
| JBool (b : bool)
| JNum (q : Q)
| JStr (s : string)
| JArr (items : list value)
| JObj (fields : list (string * value)).

Fixpoint lookupField (k : string) (fields : list (string * value)) : option value :=
  match fields with
  | [] => None
  | (k', v) :: r => if String.eqb k k' then Some v else lookupField k r
  end.

(** [o[k] = v] on the fields of an object: an existing key keeps its
    place, a new one goes last. *)
Fixpoint setField (k : string) (v : value) (fields : list (string * value))
  : list (string * value) :=
  match fields with
  | [] => [(k, v)]
  | (k', v') :: r =>
      if String.eqb k k' then (k, v) :: r else (k', v') :: setField k v r
  end.

(** [v.k]; [None] is [undefined]. The properties read by the pages are
    own properties of objects only. *)
Definition get (k : string) (v : value) : option value :=
  match v with
  | JObj fields => lookupField k fields
  | _ => None
  end.

(** Truthiness of a value, and of [undefined]. *)
Definition truthy (o : option value) : bool :=
  match o with
  | None | Some JNull => false
  | Some (JBool b) => b
  | Some (JNum q) => JS.numberTruthy (JS.Finite q)
  | Some (JStr s) => JS.nonEmpty s
  | Some (JArr _) | Some (JObj _) => true
  end.

(** [typeof o === "number"] *)
Definition isNumber (o : option value) : bool :=
  match o with Some (JNum _) => true | _ => false end.

(** [Array.isArray] *)
Definition isArray (v : value) : bool :=
  match v with JArr _ => true | _ => false end.

End JSON.

(** *** The text reader *)

Module Parser.
Import JSON.

Definition quote : ascii := "034"%char.
Definition backslash : ascii := "092"%char.

(** White space between tokens: space, tab, line feed, carriage return. *)
Definition isWs (c : ascii) : bool :=
  let n := JS.code c in ((n =? 32) || (n =? 9) || (n =? 10) || (n =? 13))%N.

Fixpoint skipWs (s : list ascii) : list ascii :=
  match s with
  | c :: r => if isWs c then skipWs r else s
  | [] => []
  end.

(** Drops the literal [p] from the front of the input. *)
Fixpoint expect (p : list ascii) (s : list ascii) : option (list ascii) :=
  match p, s with
  | [] , _ => Some s
  | a :: p', b :: s' => if (a =? b)%char then expect p' s' else None
  | _ :: _, [] => None
  end.

(** The code unit of a [\uXXXX] escape as bytes (UTF-8). *)
Definition unitBytes (n : N) : string :=
  if (n <? 128)%N then String (ascii_of_N n) EmptyString
  else if (n <? 2048)%N then
    String (ascii_of_N (192 + n / 64))
      (String (ascii_of_N (128 + n mod 64)) EmptyString)
  else
    String (ascii_of_N (224 + n / 4096))
      (String (ascii_of_N (128 + (n / 64) mod 64))
         (String (ascii_of_N (128 + n mod 64)) EmptyString)).

Definition hex4 (a b c d : ascii) : option N :=
  match JS.digitValue 16 a, JS.digitValue 16 b, JS.digitValue 16 c, JS.digitValue 16 d with
  | Some x, Some y, Some z, Some w => Some (Z.to_N (((x * 16 + y) * 16 + z) * 16 + w))
  | _, _, _, _ => None
  end.

(** The characters of a string after its opening quote, up to and
    including the closing quote. *)
Fixpoint parseChars (s : list ascii) : option (string * list ascii) :=
  match s with
  | [] => None
  | c :: r =>
      if (c =? quote)%char then Some (EmptyString, r)
      else if (c =? backslash)%char then
        match r with
        | e :: r' =>
            let simple (x : ascii) :=
              match parseChars r' with
              | Some (t, rest) => Some (String x t, rest)
              | None => None
              end in
            if (e =? quote)%char then simple quote
            else if (e =? backslash)%char then simple backslash
            else if (e =? "/")%char then simple "/"%char
            else if (e =? "b")%char then simple "008"%char
            else if (e =? "f")%char then simple "012"%char
            else if (e =? "n")%char then simple "010"%char
            else if (e =? "r")%char then simple "013"%char
            else if (e =? "t")%char then simple "009"%char
            else if (e =? "u")%char then
              match r' with
              | h1 :: h2 :: h3 :: h4 :: r'' =>
                  match hex4 h1 h2 h3 h4, parseChars r'' with
                  | Some n, Some (t, rest) => Some (unitBytes n +:+ t, rest)
                  | _, _ => None
                  end
              | _ => None
              end
            else None
        | [] => None
        end
      else if (JS.code c <? 32)%N then None
      else
        match parseChars r with
        | Some (t, rest) => Some (String c t, rest)
        | None => None
        end
  end.

(** The end of a number: an optional exponent after the mantissa [m], of
    which [nf] digits are fraction digits. *)
Definition finishNumber (neg : bool) (m : Z) (nf : nat) (r : list ascii)
  : option (Q * list ascii) :=
  match JS.readExponent r with
  | Some (e, rest) =>
      Some (JS.scale10 (if neg then - m else m) (e - Z.of_nat nf), rest)
  | None => None
  end.

Definition leadingZero (u : list ascii) : bool :=
  match u with
  | c :: _ => (c =? "0")%char
  | [] => false
  end.

(** A number after its sign: an integer part without leading zeros, an
    optional fraction and an optional exponent. *)
Definition parseUnsigned (neg : bool) (u : list ascii) : option (Q * list ascii) :=
  match JS.readDigits 10 0 0 u with
  | (_, O, _) => None
  | (ip, S ni, r1) =>
      if leadingZero u && negb (Nat.eqb ni 0) then None
      else
        match r1 with
        | c :: r =>
            if (c =? ".")%char then
              match JS.readDigits 10 ip 0 r with
              | (_, O, _) => None
              | (m, nf, r2) => finishNumber neg m nf r2
              end
            else finishNumber neg ip O r1
        | [] => finishNumber neg ip O r1
        end
  end.

(** A number: an optional minus and the rest. *)
Definition parseNumber (s : list ascii) : option (Q * list ascii) :=
  match s with
  | c :: r => if (c =? "-")%char then parseUnsigned true r else parseUnsigned false s
  | [] => None
  end.

(** The elements of a non-empty array after its opening bracket; [n]
    bounds the number of elements by the length of the input. *)
Fixpoint parseElements (pv : list ascii → option (value * list ascii))
    (n : nat) (s : list ascii) : option (list value * list ascii) :=
  match n with
  | O => None
  | S n' =>
      match pv s with
      | Some (v, r) =>
          match skipWs r with
          | c :: r' =>
              if (c =? ",")%char then
                match parseElements pv n' r' with
                | Some (vs, rest) => Some (v :: vs, rest)
                | None => None
                end
              else if (c =? "]")%char then Some ([v], r')
              else None
          | [] => None
          end
      | None => None
      end
  end.

(** The members of a non-empty object after its opening brace; a key
    that occurs again overwrites the earlier value. *)
Fixpoint parseMembers (pv : list ascii → option (value * list ascii))
    (n : nat) (s : list ascii) (acc : list (string * value))
  : option (list (string * value) * list ascii) :=
  match n with
  | O => None
  | S n' =>
      match skipWs s with
      | q :: r =>
          if (q =? quote)%char then
            match parseChars r with
            | Some (k, r1) =>
                match skipWs r1 with
                | c :: r2 =>
                    if (c =? ":")%char then
                      match pv r2 with
                      | Some (v, r3) =>
                          let acc' := setField k v acc in
                          match skipWs r3 with
                          | d :: r4 =>
                              if (d =? ",")%char then parseMembers pv n' r4 acc'
                              else if (d =? "}")%char then Some (acc', r4)
                              else None
                          | [] => None
                          end
                      | None => None
                      end
                    else None
                | [] => None
                end
            | None => None
            end
          else None
      | [] => None
      end
  end.

Definition lit (s : string) : list ascii := list_ascii_of_string s.

(** One value; [fuel] bounds the nesting depth. *)
Fixpoint parseValue (fuel : nat) (s : list ascii) : option (value * list ascii) :=
  match fuel with
  | O => None
  | S fuel' =>
      match skipWs s with
      | [] => None
      | c :: r =>
          if (c =? quote)%char then
            match parseChars r with
            | Some (t, rest) => Some (JStr t, rest)
            | None => None
            end
          else if (c =? "[")%char then
            match skipWs r with
            | d :: r' =>
                if (d =? "]")%char then Some (JArr [], r')
                else
                  match parseElements (parseValue fuel') (List.length r) r with
                  | Some (vs, rest) => Some (JArr vs, rest)
                  | None => None
                  end
            | [] => None
            end
          else if (c =? "{")%char then
            match skipWs r with
            | d :: r' =>
                if (d =? "}")%char then Some (JObj [], r')
                else
                  match parseMembers (parseValue fuel') (List.length r) r [] with
                  | Some (fs, rest) => Some (JObj fs, rest)
                  | None => None
                  end
            | [] => None
            end
          else
            match expect (lit "null") (c :: r), expect (lit "true") (c :: r),
                  expect (lit "false") (c :: r) with
            | Some rest, _, _ => Some (JNull, rest)
            | _, Some rest, _ => Some (JBool true, rest)
            | _, _, Some rest => Some (JBool false, rest)
            | _, _, _ =>
                match parseNumber (c :: r) with
                | Some (q, rest) => Some (JNum q, rest)
                | None => None
                end
            end
      end
  end.

(** [JSON.parse]: one value and nothing but white space after it.
    [None] stands for the [SyntaxError] it throws. A value nests no
    deeper than the text is long, so the fuel never runs out first. *)
Definition parse (text : string) : option value :=
  let s := lit text in
  match parseValue (S (List.length s)) s with
  | Some (v, rest) =>
      match skipWs rest with
      | [] => Some v
      | _ :: _ => None
      end
  | None => None
  end.

End Parser.

(** ** [JSON.stringify] *)

Module Printer.
Import JSON Parser.

Definition newline : ascii := "010"%char.

Definition digitChar (d : N) : ascii := ascii_of_N (48 + d).

(** The decimal digits of [n] in front of [tail]; [fuel] bounds their
    number. *)
Fixpoint digitsOf (fuel : nat) (n : N) (tail : list ascii) : list ascii :=
  match fuel with
  | O => tail
  | S fuel' =>
      if (n <? 10)%N then digitChar n :: tail
      else digitsOf fuel' (n / 10) (digitChar (n mod 10) :: tail)
  end.

Definition naturalText (n : N) : list ascii :=
  digitsOf (S (N.to_nat (N.log2 n))) n [].

Definition integerText (z : Z) : list ascii :=
  match z with
  | Z0 => naturalText 0
  | Zpos p => naturalText (Npos p)
  | Zneg p => "-"%char :: naturalText (Npos p)
  end.

(** The text of a number. Only integers are written: the decimal form
    that JavaScript gives to other numbers is not modelled. *)
Definition numberText (q : Q) : option (list ascii) :=
  if Pos.eqb (Qden q) 1 then Some (integerText (Qnum q)) else None.

Definition hexChar (d : N) : ascii :=
  if (d <? 10)%N then ascii_of_N (48 + d) else ascii_of_N (87 + d).

(** One character inside a string: the quote, the backslash and the
    control characters are escaped. *)
Definition escapeChar (c : ascii) : list ascii :=
  let n := JS.code c in
  if (c =? quote)%char then [backslash; quote]
  else if (c =? backslash)%char then [backslash; backslash]
  else if (n =? 8)%N then [backslash; "b"%char]
  else if (n =? 12)%N then [backslash; "f"%char]
  else if (n =? 10)%N then [backslash; "n"%char]
  else if (n =? 13)%N then [backslash; "r"%char]
  else if (n =? 9)%N then [backslash; "t"%char]
  else if (n <? 32)%N then
    [backslash; "u"%char; "0"%char; "0"%char; hexChar (n / 16); hexChar (n mod 16)]
  else [c].

Definition quoteText (s : string) : list ascii :=
  quote :: flat_map escapeChar (lit s) ++ [quote].

(** All the results, if there is one for every element. *)
Fixpoint allSome {A} (l : list (option A)) : option (list A) :=
  match l with
  | [] => Some []
  | Some x :: r =>
      match allSome r with
      | Some xs => Some (x :: xs)
      | None => None
      end
  | None :: _ => None
  end.

(** The elements of an array or the members of an object, one on a line,
    indented, with commas in between. *)
Fixpoint joinLines (inner : list ascii) (texts : list (list ascii)) : list ascii :=
  match texts with
  | [] => []
  | t :: r =>
      newline :: inner ++ t ++
      match r with [] => [] | _ :: _ => [","%char] end ++ joinLines inner r
  end.

(** A member of an object: its key, a colon, a space and its value. *)
Definition memberOf (k : string) (t : list ascii) : list ascii :=
  quoteText k ++ ":"%char :: " "%char :: t.

(** [JSON.stringify(v, null, 2)] with the current indentation. *)
Fixpoint stringifyAt (indent : list ascii) (v : value) {struct v}
  : option (list ascii) :=
  let inner := " "%char :: " "%char :: indent in
  match v with
  | JNull => Some (lit "null")
  | JBool b => Some (lit (if b then "true" else "false"))
  | JNum q => numberText q
  | JStr s => Some (quoteText s)
  | JArr [] => Some (lit "[]")
  | JArr items =>
      match allSome (List.map (stringifyAt inner) items) with
      | Some texts =>
          Some ("["%char :: joinLines inner texts ++ newline :: indent ++ ["]"%char])
      | None => None
      end
  | JObj [] => Some (lit "{}")
  | JObj fields =>
      match allSome (List.map (λ kv, match kv with
                                     | (k, x) =>
                                         option_map (memberOf k) (stringifyAt inner x)
                                     end) fields) with
      | Some texts =>
          Some ("{"%char :: joinLines inner texts ++ newline :: indent ++ ["}"%char])
      | None => None
      end
  end.

Definition stringify (v : value) : option string :=
  string_of_list_ascii <$> stringifyAt [] v.

End Printer.

(** ** Data model *)

(** Modelled from the spec: the declaration of [Photo] in src/types.ts is
    not among the sources; the specification gives its fields (section 3):
    id, albumId, title, url, thumbnailUrl. *)
Record Photo : Type := {
  id : Z;
  albumId : Z;
  title : string;
  url : string;
  thumbnailUrl : string
}.

#[global] Instance Photo_eq_dec : EqDecision Photo.
Proof. solve_decision. Defined.

(** The object a [Photo] is at run time. *)
Definition Photo_json (p : Photo) : JSON.value :=
  JSON.JObj [ ("albumId", JSON.JNum (inject_Z (albumId p)));
              ("id", JSON.JNum (inject_Z (id p)));
              ("title", JSON.JStr (title p));
              ("url", JSON.JStr (url p));
              ("thumbnailUrl", JSON.JStr (thumbnailUrl p)) ].

#[global] Instance Q_eq_dec : EqDecision Q.
Proof. solve_decision. Defined.

#[global] Instance Q_countable : Countable Q :=
  inj_countable' (λ q, (Qnum q, Qden q)) (λ p, Qmake p.1 p.2)
    (λ q, match q with Qmake _ _ => eq_refl end).

(** [type FavStore = { [id: number]: Photo }]. A property key is the
    number it was written with, in lowest terms; the values are whatever
    objects were stored. *)
Abbreviation FavStore := (gmap Q JSON.value).

Definition propertyKey (q : Q) : Q := Qred q.

Definition keyOfId (n : Z) : Q := inject_Z n.

Definition compareKeys (a b : Q * JSON.value) : Z :=
  match Qcompare a.1 b.1 with
  | Lt => (-1)%Z
  | Eq => 0%Z
  | Gt => 1%Z
  end.

(** [Object.values]: the values in ascending order of their keys. (For
    keys that are not array indices JavaScript keeps insertion order, which
    a finite map does not record; nothing below depends on the order.) *)
Definition Object_values (s : FavStore) : list JSON.value :=
  (JS.sort compareKeys (map_to_list s)).*2.

(** [Object.keys]: the keys, in the order of [Object.values]. *)
Definition Object_keys (s : FavStore) : list Q :=
  (JS.sort compareKeys (map_to_list s)).*1.

(** The id a stored object carries, as a property key. *)
Definition keyOf (v : JSON.value) : option Q :=
  match JSON.get "id" v with
  | Some (JSON.JNum q) => Some (propertyKey q)
  | _ => None
  end.

(** Every entry is stored under the id it carries: the invariant of the
    favorites map in the data model. *)
Definition keyed (s : FavStore) : Prop :=
  map_Forall (λ k v, keyOf v = Some k) s.

#[global] Instance keyed_dec (s : FavStore) : Decision (keyed s).
Proof. unfold keyed. apply _. Defined.

(** Modelled from the spec: the hook [useLocalStorage] is not among the
    sources. The favorites map is the state it holds (section 4.1: every
    mutation stores the full map); [setFavs] called with an updater
    replaces the map by what the updater returns. Where the pages call it
    with a map ([clearAll], [onImportFile]) that map is the new state. *)
Definition setFavs (update : FavStore → FavStore) (favs : FavStore) : FavStore :=
  update favs.

(** Arrays as objects with identity: a heap is the list of the arrays
    allocated so far and a reference is an index into it. *)
Module Heap.

Abbreviation ref := nat.
Abbreviation heap A := (list (list A)).

(** A new array, as [filter] and [slice] return. *)
Definition alloc {A} (xs : list A) (h : heap A) : ref * heap A :=
  (List.length h, h ++ [xs]).

(** An array overwritten in place, as [sort] does. *)
Definition store {A} (r : ref) (xs : list A) (h : heap A) : heap A :=
  <[r := xs]> h.

End Heap.

(** The query string of the page, as [useSearchParams] gives it: a list
    of name-value pairs in which a name may occur more than once. *)
Module URLSearchParams.

Abbreviation t := (list (string * string)).

(** [get(name)]: the value of the first pair with that name. *)
Definition get (name : string) (params : t) : option string :=
  match List.find (λ kv, String.eqb kv.1 name) params with
  | Some kv => Some kv.2
  | None => None
  end.

(** [delete(name)]: every pair with that name is removed. *)
Definition delete (name : string) (params : t) : t :=
  List.filter (λ kv, negb (String.eqb kv.1 name)) params.

(** [set(name, value)]: the first pair with that name takes the value
    and the other ones are removed; without such a pair one is appended. *)
Fixpoint set (name value : string) (params : t) : t :=
  match params with
  | [] => [(name, value)]
  | kv :: rest =>
      if String.eqb kv.1 name then (name, value) :: delete name rest
      else kv :: set name value rest
  end.

End URLSearchParams.

(** ** src/pages/Gallery.tsx *)

Module Gallery.

(** [setFavs((s) => (s[p.id] ? (delete s[p.id], { ...s }) : { ...s, [p.id]: p }))].
    (The removing branch also deletes the key from the previous state
    object before copying it; what is stored is the copy.) *)
Definition toggleFav (p : Photo) (favs : FavStore) : FavStore :=
  setFavs (λ s, if JSON.truthy (s !! keyOfId (id p))
                then delete (keyOfId (id p)) s
                else <[keyOfId (id p) := Photo_json p]> s) favs.


(** [!albumId] *)
Definition noAlbum (album : option JS.number) : bool :=
  match album with
  | None => true
  | Some n => negb (JS.numberTruthy n)
  end.

(** [p.albumId === albumId] *)
Definition sameAlbum (p : Photo) (album : option JS.number) : bool :=
  match album with
  | None => false
  | Some n => JS.strictEq (JS.ofZ (albumId p)) n
  end.

(** The predicate of [items.filter(...)] in [filtered]. *)
Definition shown (album : option JS.number) (qDebounced : string) (p : Photo) : bool :=
  (noAlbum album || sameAlbum p album) &&
  (negb (JS.nonEmpty qDebounced) ||
   JS.includes (JS.toLowerCase (title p)) (JS.toLowerCase qDebounced)).

(** [filtered]: the items shown. *)
Definition filtered (items : list Photo) (album : option JS.number)
    (qDebounced : string) : list Photo :=
  List.filter (shown album qDebounced) items.

(** [filtered] on the heap: [filter] allocates the array it returns. *)
Definition filteredOn (items : Heap.ref) (album : option JS.number)
    (qDebounced : string) (h : Heap.heap Photo)
  : option (Heap.ref * Heap.heap Photo) :=
  match h !! items with
  | Some xs => Some (Heap.alloc (List.filter (shown album qDebounced) xs) h)
  | None => None
  end.

(** *** Pagination *)

(** The page size: the default [limit] of [fetchPhotosPage]. *)
Definition pageSize : nat := 24.

(** The two effects that fetch a page. *)
Inductive Effect : Type := Appender | Reset.

#[global] Instance Effect_eq_dec : EqDecision Effect.
Proof. solve_decision. Defined.

(** A fetch in flight, with the [alive] flag of the effect run that
    issued it. *)
Record Request : Type := {
  rid : nat;
  rpage : Z;
  source : Effect;
  alive : bool
}.

Record State : Type := {
  page : Z;
  items : list Photo;
  hasMore : bool;
  loading : bool;
  initialLoaded : bool;
  error : option string;
  qDebounced : string;
  albumParam : string;
  requests : list Request;
  issued : nat
}.

Definition initial (q album : string) : State :=
  {| page := 1; items := []; hasMore := true; loading := false;
     initialLoaded := false; error := None;
     qDebounced := q; albumParam := album; requests := []; issued := 0 |}.

(** The clean-up of an effect: [alive = false] for the fetch of its
    previous run. *)
Definition cleanup (e : Effect) (st : State) : State :=
  {| page := page st; items := items st; hasMore := hasMore st;
     loading := loading st; initialLoaded := initialLoaded st;
     error := error st; qDebounced := qDebounced st;
     albumParam := albumParam st;
     requests :=
       List.map (λ r, if decide (source r = e)
                      then {| rid := rid r; rpage := rpage r;
                              source := source r; alive := false |}
                      else r) (requests st);
     issued := issued st |}.

(** The page appender effect (dependencies: [page]). *)
Definition pageEffect (st : State) : State :=
  let st := cleanup Appender st in
  {| page := page st; items := items st; hasMore := hasMore st;
     loading := true; initialLoaded := initialLoaded st;
     error := None; qDebounced := qDebounced st;
     albumParam := albumParam st;
     requests := requests st ++
       [{| rid := issued st; rpage := page st; source := Appender; alive := true |}];
     issued := S (issued st) |}.

(** The reset effect (dependencies: [qDebounced], [albumParam]). *)
Definition resetEffect (st : State) : State :=
  let st := cleanup Reset st in
  {| page := 1; items := []; hasMore := true;
     loading := true; initialLoaded := initialLoaded st;
     error := None; qDebounced := qDebounced st;
     albumParam := albumParam st;
     requests := requests st ++
       [{| rid := issued st; rpage := 1; source := Reset; alive := true |}];
     issued := S (issued st) |}.

(** After an update React runs the page appender effect again only if
    [page] is not what it was. *)
Definition rerender (before : Z) (st : State) : State :=
  if decide (page st = before) then st else pageEffect st.

(** [setPage(f)] *)
Definition setPage (f : Z → Z) (st : State) : State :=
  rerender (page st)
    {| page := f (page st); items := items st; hasMore := hasMore st;
       loading := loading st; initialLoaded := initialLoaded st;
       error := error st; qDebounced := qDebounced st;
       albumParam := albumParam st; requests := requests st;
       issued := issued st |}.

(** The first render: both effects run, in the order they are declared. *)
Definition mount (q album : string) : State :=
  resetEffect (pageEffect (initial q album)).

(** [qDebounced] or [albumParam] takes a new value. *)
Definition changeFilters (q album : string) (st : State) : State :=
  if decide (q = qDebounced st ∧ album = albumParam st) then st
  else
    rerender (page st)
      (resetEffect
         {| page := page st; items := items st; hasMore := hasMore st;
            loading := loading st; initialLoaded := initialLoaded st;
            error := error st; qDebounced := q; albumParam := album;
            requests := requests st; issued := issued st |}).

(** [!error] *)
Definition noError (st : State) : bool :=
  match error st with
  | None => true
  | Some msg => negb (JS.nonEmpty msg)
  end.

(** Modelled from the spec: the hook [useInfiniteRef] is not among the
    sources. What the specification calls the sentinel-triggered advance
    (glossary) is the controller being asked for the next page: when the
    sentinel comes into view the callback given to the hook runs. *)
Definition useInfiniteRef (callback : State → State) (st : State) : State :=
  callback st.

(** The callback of the sentinel:
    [hasMore && !loading && !error && setPage((p) => p + 1)]. *)
Definition onIntersect (st : State) : State :=
  if hasMore st && negb (loading st) && noError st
  then setPage (λ p, p + 1)%Z st
  else st.

(** The Retry button: [setPage((p) => p)]. *)
Definition retry (st : State) : State := setPage (λ p, p) st.

(** The handlers of a fetch that is still alive: [then] or [catch], and
    [finally]. *)
Definition applyResult (e : Effect) (result : option (list Photo)) (st : State) : State :=
  {| page := page st;
     items :=
       match result with
       | Some data =>
           match e with
           | Appender => items st ++ data
           | Reset => data
           end
       | None => items st
       end;
     hasMore :=
       match result with
       | Some data => if (List.length data <? pageSize)%nat then false else hasMore st
       | None => hasMore st
       end;
     loading := false; initialLoaded := true;
     error :=
       match result with
       | Some _ => error st
       | None => Some "Could not load photos"
       end;
     qDebounced := qDebounced st; albumParam := albumParam st;
     requests := requests st; issued := issued st |}.

(** The fetch [n] completes, with the page it loaded or with a failure;
    a completion is ignored when its effect has been cleaned up. *)
Definition settle (n : nat) (result : option (list Photo)) (st : State) : State :=
  match List.find (λ r, Nat.eqb (rid r) n) (requests st) with
  | None => st
  | Some r =>
      let st' :=
        {| page := page st; items := items st; hasMore := hasMore st;
           loading := loading st; initialLoaded := initialLoaded st;
           error := error st; qDebounced := qDebounced st;
           albumParam := albumParam st;
           requests := List.filter (λ r, negb (Nat.eqb (rid r) n)) (requests st);
           issued := issued st |} in
      if alive r then applyResult (source r) result st' else st'
  end.

Inductive Event : Type :=
| Fetched (n : nat) (data : list Photo)
| Failed (n : nat)
| Intersect
| Retry
| Filters (q album : string).

Definition step (st : State) (ev : Event) : State :=
  match ev with
  | Fetched n data => settle n (Some data) st
  | Failed n => settle n None st
  | Intersect => useInfiniteRef onIntersect st
  | Retry => retry st
  | Filters q album => changeFilters q album st
  end.

(** A run of the page: the events in the order they happen. *)
Definition run (st : State) (evs : list Event) : State :=
  fold_left step evs st.

(** *** The rest of the page *)

(** [const totalFavs = Object.keys(favs).length]: the number on the
    Favorites badge. *)
Definition totalFavs (favs : FavStore) : nat := List.length (Object_keys favs).

(** [fav={!!favs[p.id]}]: whether the star of a card is lit. *)
Definition isFav (p : Photo) (favs : FavStore) : bool :=
  JSON.truthy (favs !! keyOfId (id p)).



(** The state kept in the URL. *)
Module Url.

(** [params.get("q") ?? ""] *)
Definition qParam (params : URLSearchParams.t) : string :=
  default "" (URLSearchParams.get "q" params).

(** [params.get("album") ?? ""] *)
Definition albumParam (params : URLSearchParams.t) : string :=
  default "" (URLSearchParams.get "album" params).

(** [onChangeQ] *)
Definition onChangeQ (v : string) (params : URLSearchParams.t) : URLSearchParams.t :=
  if JS.nonEmpty v then URLSearchParams.set "q" v params
  else URLSearchParams.delete "q" params.

(** [onChangeAlbum] *)
Definition onChangeAlbum (v : string) (params : URLSearchParams.t) : URLSearchParams.t :=
  if JS.nonEmpty v then URLSearchParams.set "album" v params
  else URLSearchParams.delete "album" params.

(** [clearFilters] *)
Definition clearFilters (params : URLSearchParams.t) : URLSearchParams.t :=
  URLSearchParams.delete "album" (URLSearchParams.delete "q" params).

(** [(qParam || albumParam) && ...]: whether the Clear button is there. *)
Definition showClear (params : URLSearchParams.t) : bool :=
  JS.nonEmpty (qParam params) || JS.nonEmpty (albumParam params).

End Url.

End Gallery.

(** ** src/pages/PhotoDetail.tsx *)

Module PhotoDetail.

(** [toggleFav]: nothing happens while no photo is loaded. *)
Definition toggleFav (photo : option Photo) (favs : FavStore) : FavStore :=
  match photo with
  | None => favs
  | Some photo =>
      setFavs (λ s, if JSON.truthy (s !! keyOfId (id photo))
                    then delete (keyOfId (id photo)) s
                    else <[keyOfId (id photo) := Photo_json photo]> s) favs
  end.

Record State : Type := {
  photo : option Photo;
  err : option string;
  loaded : bool;
  fetches : list JS.number
}.

Definition initial : State :=
  {| photo := None; err := None; loaded := false; fetches := [] |}.

(** [const pid = Number(id)], [id] being the route parameter. *)
Definition pidOf (routeId : option string) : JS.number := JS.Number routeId.

(** The guard of the load effect: [!Number.isFinite(pid) || pid <= 0]. *)
Definition invalidId (pid : JS.number) : bool :=
  negb (JS.isFinite pid) || JS.leZero pid.

(** The load effect (dependencies: [pid]); [fetches] records the calls of
    [fetchPhoto]. *)
Definition loadPhoto (pid : JS.number) (st : State) : State :=
  if invalidId pid then
    {| photo := photo st; err := Some "Invalid photo id";
       loaded := loaded st; fetches := fetches st |}
  else
    {| photo := None; err := None; loaded := false;
       fetches := fetches st ++ [pid] |}.

(** The view on arriving at [/photo/:id]. *)
Definition open (routeId : option string) : State :=
  loadPhoto (pidOf routeId) initial.

(** [const isFav = !!(photo && favs[photo.id])] *)
Definition isFav (photo : option Photo) (favs : FavStore) : bool :=
  match photo with
  | Some p => JSON.truthy (favs !! keyOfId (id p))
  | None => false
  end.


(** [!err] *)
Definition noErr (st : State) : bool :=
  match err st with
  | None => true
  | Some msg => negb (JS.nonEmpty msg)
  end.

(** [const loading = !err && !photo]: whether the skeleton shows. *)
Definition loading (st : State) : bool :=
  noErr st && negb (bool_decide (is_Some (photo st))).

(** *** The page over time *)

(** A call of [fetchPhoto] in flight, with the [alive] flag of the effect
    run that made it. *)
Record Fetch : Type := {
  fid : nat;
  fpid : JS.number;
  live : bool
}.

(** The component between renders: what it shows, the [pid] of the last
    render, and the fetches that have not completed. *)
Record Page : Type := {
  view : State;
  pid : JS.number;
  inFlight : list Fetch;
  started : nat
}.

(** The clean-up of the load effect, where its last run left one. *)
Definition stale (fs : list Fetch) : list Fetch :=
  List.map (λ f, {| fid := fid f; fpid := fpid f; live := false |}) fs.

(** The load effect together with the flag it creates. *)
Definition loadEffect (p : JS.number) (pg : Page) : Page :=
  {| view := loadPhoto p (view pg);
     pid := p;
     inFlight :=
       if invalidId p then stale (inFlight pg)
       else stale (inFlight pg) ++ [{| fid := started pg; fpid := p; live := true |}];
     started := if invalidId p then started pg else S (started pg) |}.

(** The first render at [/photo/:id]. *)
Definition mount (routeId : option string) : Page :=
  loadEffect (pidOf routeId)
    {| view := initial; pid := pidOf routeId; inFlight := []; started := 0 |}.

(** The route parameter changes while the page is mounted: the effect
    runs again only if [pid] is another number. *)
Definition navigateTo (routeId : option string) (pg : Page) : Page :=
  if JS.Object_is (pidOf routeId) (pid pg) then pg
  else loadEffect (pidOf routeId) pg.

(** The fetch [n] completes, with the photo or with a failure:
    [setPhoto(p)] or [setErr("Photo not found")], unless the effect that
    made it has been cleaned up. *)
Definition complete (n : nat) (result : option Photo) (pg : Page) : Page :=
  match List.find (λ f, Nat.eqb (fid f) n) (inFlight pg) with
  | None => pg
  | Some f =>
      {| view :=
           if live f then
             match result with
             | Some p =>
                 {| photo := Some p; err := err (view pg);
                    loaded := loaded (view pg); fetches := fetches (view pg) |}
             | None =>
                 {| photo := photo (view pg); err := Some "Photo not found";
                    loaded := loaded (view pg); fetches := fetches (view pg) |}
             end
           else view pg;
         pid := pid pg;
         inFlight := List.filter (λ f, negb (Nat.eqb (fid f) n)) (inFlight pg);
         started := started pg |}
  end.

(** [onLoad={() => setLoaded(true)}] of the image, which is rendered
    while there is a photo. *)
Definition imageLoaded (pg : Page) : Page :=
  match photo (view pg) with
  | None => pg
  | Some _ =>
      {| view := {| photo := photo (view pg); err := err (view pg);
                    loaded := true; fetches := fetches (view pg) |};
         pid := pid pg; inFlight := inFlight pg; started := started pg |}
  end.

Inductive Event : Type :=
| Navigate (routeId : option string)
| Resolved (n : nat) (p : Photo)
| Rejected (n : nat)
| ImageLoaded.

Definition step (pg : Page) (ev : Event) : Page :=
  match ev with
  | Navigate routeId => navigateTo routeId pg
  | Resolved n p => complete n (Some p) pg
  | Rejected n => complete n None pg
  | ImageLoaded => imageLoaded pg
  end.

Definition run (pg : Page) (evs : list Event) : Page :=
  fold_left step evs pg.

End PhotoDetail.

(** ** src/pages/Favorites.tsx *)

Module Favorites.

Inductive SortKey : Type := idDesc | idAsc | byTitle.

(** [(params.get("sort") as SortKey) ?? "idDesc"] followed by the
    [switch]: a missing or unknown key is [idDesc]. *)
Definition sortKeyOf (sortParam : option string) : SortKey :=
  match sortParam with
  | None => idDesc
  | Some s =>
      if String.eqb s "title" then byTitle
      else if String.eqb s "idAsc" then idAsc
      else idDesc
  end.

(** [const all = Object.values(favs)] *)
Definition all (favs : FavStore) : list JSON.value := Object_values favs.

Section View.
(** [String.prototype.localeCompare]: the collation of the host. *)
Variable localeCompare : string → string → Z.

Definition compareFn (k : SortKey) (a b : Photo) : Z :=
  match k with
  | byTitle => localeCompare (title a) (title b)
  | idAsc => id a - id b
  | idDesc => id b - id a
  end.

(** The query as the filter uses it. *)
Definition needle (qDebounced : string) : string :=
  JS.toLowerCase (JS.trim qDebounced).

Definition matches (q : string) (p : Photo) : bool :=
  JS.includes (JS.toLowerCase (title p)) q.

(** [filtered]: the favorites shown, filtered by title and sorted. *)
Definition filtered (all : list Photo) (qDebounced : string)
    (sortParam : option string) : list Photo :=
  let q := needle qDebounced in
  let res := if JS.nonEmpty q then List.filter (matches q) all else all in
  JS.sort (compareFn (sortKeyOf sortParam)) res.

(** [filtered] on the heap: [filter] and [slice] allocate the array
    [res], which [sort] then orders in place. *)
Definition filteredOn (all : Heap.ref) (qDebounced : string)
    (sortParam : option string) (h : Heap.heap Photo)
  : option (Heap.ref * Heap.heap Photo) :=
  match h !! all with
  | None => None
  | Some xs =>
      let q := needle qDebounced in
      let '(res, h1) :=
        if JS.nonEmpty q then Heap.alloc (List.filter (matches q) xs) h
        else Heap.alloc xs h in
      match h1 !! res with
      | None => None
      | Some ys =>
          Some (res, Heap.store res (JS.sort (compareFn (sortKeyOf sortParam)) ys) h1)
      end
  end.

(** [const payload = filtered.length ? filtered : all] *)
Definition payload {A} (filtered all : list A) : list A :=
  if Nat.eqb (List.length filtered) 0 then all else filtered.

(** [exportJSON]: the array handed to [JSON.stringify]. *)
Definition exportJSON (all : list Photo) (qDebounced : string)
    (sortParam : option string) : JSON.value :=
  JSON.JArr (Photo_json <$> payload (filtered all qDebounced sortParam) all).

(** The text of the file offered for download:
    [JSON.stringify(payload, null, 2)]. *)
Definition exportText (all : list Photo) (qDebounced : string)
    (sortParam : option string) : option string :=
  Printer.stringify (exportJSON all qDebounced sortParam).
End View.

(** [removeOne] *)
Definition removeOne (p : Photo) (favs : FavStore) : FavStore :=
  setFavs (λ s, delete (keyOfId (id p)) s) favs.

(** [clearAll]; [confirmed] is the answer to [window.confirm]. *)
Definition clearAll (confirmed : bool) (favs : FavStore) : FavStore :=
  if Nat.eqb (List.length (all favs)) 0 then favs
  else if confirmed then ∅ else favs.

(** The test of [onImportFile] on one element:
    [p && typeof p.id === "number" && p.url && p.thumbnailUrl && p.title]. *)
Definition accepts (item : JSON.value) : bool :=
  JSON.truthy (Some item) &&
  JSON.isNumber (JSON.get "id" item) &&
  JSON.truthy (JSON.get "url" item) &&
  JSON.truthy (JSON.get "thumbnailUrl" item) &&
  JSON.truthy (JSON.get "title" item).

(** One turn of the loop: [next[p.id] = p] for an accepted element. *)
Definition mergeItem (next : FavStore) (item : JSON.value) : FavStore :=
  if accepts item then
    match JSON.get "id" item with
    | Some (JSON.JNum q) => <[propertyKey q := item]> next
    | _ => next
    end
  else next.

(** The loop over the parsed array, starting from [{ ...favs }]. *)
Definition mergeItems (arr : list JSON.value) (favs : FavStore) : FavStore :=
  fold_left mergeItem arr favs.

Definition importFailed : string := "Import failed: invalid JSON.".

(** The body of the [try] once the text is read: the store to set and
    the message alerted, if any. *)
Definition importText (text : string) (favs : FavStore) : FavStore * option string :=
  match Parser.parse text with
  | Some (JSON.JArr arr) => (mergeItems arr favs, None)
  | Some _ => (favs, Some importFailed)
  | None => (favs, Some importFailed)
  end.

(** [onImportFile]; [file] is the text of the chosen file, if one was
    chosen. *)
Definition onImportFile (file : option string) (favs : FavStore)
  : FavStore * option string :=
  match file with
  | None => (favs, None)
  | Some text => importText text favs
  end.

(** *** The state kept in the URL *)

(** The values of [SortKey]. *)
Definition sortKeyName (k : SortKey) : string :=
  match k with
  | idDesc => "idDesc"
  | idAsc => "idAsc"
  | byTitle => "title"
  end.

(** [params.get("q") ?? ""] *)
Definition qParam (params : URLSearchParams.t) : string :=
  default "" (URLSearchParams.get "q" params).

(** [params.get("sort")], which [sortKeyOf] reads. *)
Definition sortParam (params : URLSearchParams.t) : option string :=
  URLSearchParams.get "sort" params.

(** [setParam]; [val] is [None] for [undefined]. *)
Definition setParam (key : string) (val : option string)
    (params : URLSearchParams.t) : URLSearchParams.t :=
  match val with
  | Some v =>
      if JS.nonEmpty v then URLSearchParams.set key v params
      else URLSearchParams.delete key params
  | None => URLSearchParams.delete key params
  end.

(** [onChangeQ]: [setParam("q", v || undefined)] *)
Definition onChangeQ (v : string) (params : URLSearchParams.t) : URLSearchParams.t :=
  setParam "q" (if JS.nonEmpty v then Some v else None) params.

(** [onChangeSort]: [setParam("sort", v)] *)
Definition onChangeSort (v : SortKey) (params : URLSearchParams.t) : URLSearchParams.t :=
  setParam "sort" (Some (sortKeyName v)) params.

(** *** What the page shows *)

(** [const empty = all.length === 0] *)
Definition empty {A} (all : list A) : bool := Nat.eqb (List.length all) 0.

(** [const showEmptyFiltered = !empty && filtered.length === 0] *)
Definition showEmptyFiltered {A B} (all : list A) (filtered : list B) : bool :=
  negb (empty all) && Nat.eqb (List.length filtered) 0.

(** The three bodies of the page. *)
Inductive Body : Type :=
| NoFavoritesYet
| NoMatches
| Grid (cards : list Photo).

(** [empty ? ... : showEmptyFiltered ? ... : ...] *)
Definition body {A} (all : list A) (filtered : list Photo) : Body :=
  if empty all then NoFavoritesYet
  else if showEmptyFiltered all filtered then NoMatches
  else Grid filtered.

End Favorites.

(** ** Notions the properties are stated with *)

Module Spec.
Import JSON Parser Printer.

(** Modelled on the words of the specification: [q] occurs in [t] as a
    substring when letter case is ignored. *)
Definition containsCI (t q : string) : Prop :=
  ∃ pre mid post, t = pre +:+ mid +:+ post ∧ JS.toLowerCase mid = JS.toLowerCase q.

(** A comparator is consistent when it orders the elements totally: what
    ECMAScript asks of the function passed to [sort]. *)
Definition Consistent {A} (compareFn : A → A → Z) : Prop :=
  (∀ a b, (0 < compareFn a b)%Z → (compareFn b a <= 0)%Z) ∧
  (∀ a b c, (compareFn a b <= 0)%Z → (compareFn b c <= 0)%Z →
            (compareFn a c <= 0)%Z).

Definition before {A} (compareFn : A → A → Z) (a b : A) : Prop :=
  (compareFn a b <= 0)%Z.

Definition nonEmptyString (o : option value) : bool :=
  match o with
  | Some (JStr s) => JS.nonEmpty s
  | _ => false
  end.

(** Modelled on the words of the specification: an element structurally
    matches Photo when its id is a number and its url, thumbnailUrl and
    title are strings that are not empty. *)
Definition matchesPhoto (item : value) : bool :=
  isNumber (get "id" item) &&
  nonEmptyString (get "url" item) &&
  nonEmptyString (get "thumbnailUrl" item) &&
  nonEmptyString (get "title" item).

(** The last element of the array that the import accepts under key [k]. *)
Fixpoint lastKept (k : Q) (arr : list value) : option value :=
  match arr with
  | [] => None
  | item :: r =>
      match lastKept k r with
      | Some v => Some v
      | None =>
          if Favorites.accepts item && bool_decide (keyOf item = Some k)
          then Some item else None
      end
  end.

(** The stores the pages can reach from the empty one. *)
Inductive reachable : FavStore → Prop :=
| reach_empty : reachable ∅
| reach_toggle p s : reachable s → reachable (Gallery.toggleFav p s)
| reach_remove p s : reachable s → reachable (Favorites.removeOne p s)
| reach_clear b s : reachable s → reachable (Favorites.clearAll b s)
| reach_import text s : reachable s → reachable (Favorites.importText text s).1.

(** Two elements tie under a comparator when neither comes after the
    other. *)
Definition tied {A} (compareFn : A → A → Z) (a b : A) : bool :=
  (compareFn a b <=? 0)%Z && (compareFn b a <=? 0)%Z.


(** The fetches of an effect whose completion would still be applied. *)
Definition aliveOf (e : Gallery.Effect) (rs : list Gallery.Request)
  : list Gallery.Request :=
  List.filter (λ r, Gallery.alive r && bool_decide (Gallery.source r = e)) rs.




(** The fetches of the photo page whose completion would still be
    applied. *)
Definition liveFetches (fs : list PhotoDetail.Fetch) : list PhotoDetail.Fetch :=
  List.filter PhotoDetail.live fs.

(** The photo page is in step with its route: the fetches in flight have
    ids of their own, at most one of them is awaited, that one loads the
    photo of the current route, and while it is awaited neither a photo
    nor an error is on the page. *)
Definition inStep (pg : PhotoDetail.Page) : Prop :=
  Forall (λ f, PhotoDetail.fid f < PhotoDetail.started pg)%nat (PhotoDetail.inFlight pg)
  ∧ NoDup (PhotoDetail.fid <$> PhotoDetail.inFlight pg)
  ∧ (List.length (liveFetches (PhotoDetail.inFlight pg)) <= 1)%nat
  ∧ Forall (λ f, PhotoDetail.fpid f = PhotoDetail.pid pg)
      (liveFetches (PhotoDetail.inFlight pg))
  ∧ (liveFetches (PhotoDetail.inFlight pg) ≠ [] →
     PhotoDetail.photo (PhotoDetail.view pg) = None
     ∧ PhotoDetail.err (PhotoDetail.view pg) = None).

(** What may follow a value inside an array or an object that
    [stringify] wrote: a comma or a line feed. *)
Definition afterValue (tail : list ascii) : bool :=
  match tail with
  | c :: _ => (c =? ",")%char || (c =? newline)%char
  | [] => false
  end.

(** The text of one member of a photo object, of the object, and of the
    elements of an array of photos, followed by [tail]. *)
Definition memberText (k : string) (vt tail : list ascii) : list ascii :=
  newline :: " "%char :: " "%char :: " "%char :: " "%char ::
  quoteText k ++ ":"%char :: " "%char :: vt ++ tail.

Definition closeObject (tail : list ascii) : list ascii :=
  newline :: " "%char :: " "%char :: "}"%char :: tail.

Definition photoText (p : Photo) (tail : list ascii) : list ascii :=
  "{"%char ::
  memberText "albumId" (integerText (albumId p)) (","%char ::
  memberText "id" (integerText (id p)) (","%char ::
  memberText "title" (quoteText (title p)) (","%char ::
  memberText "url" (quoteText (url p)) (","%char ::
  memberText "thumbnailUrl" (quoteText (thumbnailUrl p)) (closeObject tail))))).

Fixpoint photosText (ps : list Photo) (tail : list ascii) : list ascii :=
  match ps with
  | [] => tail
  | p :: r =>
      newline :: " "%char :: " "%char ::
      photoText p match r with
                  | [] => photosText r tail
                  | _ :: _ => ","%char :: photosText r tail
                  end
  end.

(** The text [stringify] gives for an array of photos. *)
Definition arrayText (ps : list Photo) : list ascii :=
  match ps with
  | [] => lit "[]"
  | _ :: _ => "["%char :: photosText ps [newline; "]"%char]
  end.

End Spec.

(** ** Sample data *)

Module Samples.
Import JSON Gallery.

Definition mk (n : Z) (t : string) : Photo :=
  {| id := n; albumId := 1; title := t;
     url := "https://via.placeholder.com/600";
     thumbnailUrl := "https://via.placeholder.com/150" |}.

Definition cat : Photo := mk 1 "Cat".
Definition dog : Photo := mk 2 "Dog".

(** A page of [n] photos with ids from [from]. *)
Definition pageOf (from : Z) (n : nat) : list Photo :=
  (λ i, mk (from + Z.of_nat i) "photo") <$> seq 0 n.

(** Code-unit order of strings, as a comparator. *)
Definition byteCompare (a b : string) : Z :=
  if String.leb a b then (if String.leb b a then 0 else -1) else 1.

(** [quoted s] is [s] between double quotes. *)
Definition quoted (s : string) : string :=
  String Parser.quote s +:+ String Parser.quote EmptyString.

(** An object a file can bring in under the id of [cat]. *)
Definition myCat : value :=
  JObj [("id", JNum 1); ("title", JStr "My cat"); ("url", JStr "u");
        ("thumbnailUrl", JStr "t")].

Definition validObject : value :=
  JObj [("id", JNum 1); ("title", JStr "Cat"); ("url", JStr "u");
        ("thumbnailUrl", JStr "t")].

(** The text
    [[{"id":1,"title":"Cat","url":"u","thumbnailUrl":"t"}, {"garbage":true}]]. *)
Definition mixedText : string :=
  "[{" +:+ quoted "id" +:+ ":1," +:+ quoted "title" +:+ ":" +:+ quoted "Cat" +:+ ","
    +:+ quoted "url" +:+ ":" +:+ quoted "u" +:+ ","
    +:+ quoted "thumbnailUrl" +:+ ":" +:+ quoted "t" +:+ "}, {"
    +:+ quoted "garbage" +:+ ":true}]".

(** An object whose url, thumbnailUrl and title are not strings. *)
Definition oddObject : value :=
  JObj [("id", JNum 7); ("url", JNum 5); ("thumbnailUrl", JBool true);
        ("title", JArr [])].

(** The text [[{"id":7,"url":5,"thumbnailUrl":true,"title":[]}]]. *)
Definition oddText : string :=
  "[{" +:+ quoted "id" +:+ ":7," +:+ quoted "url" +:+ ":5,"
    +:+ quoted "thumbnailUrl" +:+ ":true," +:+ quoted "title" +:+ ":[]}]".

(** Pages of 24, 24 and 10 photos: the two fetches of the first render
    load page 1, the sentinel asks for pages 2 and 3. *)
Definition threePages : list Event :=
  [Fetched 0 (pageOf 1 24); Fetched 1 (pageOf 1 24); Intersect;
   Fetched 2 (pageOf 25 24); Intersect; Fetched 3 (pageOf 49 10)].



(** Two failed fetches of the first page. *)
Definition bothFailed : list Event := [Failed 0; Failed 1].

End Samples.


(** * Properties *)

(** ** Strings *)

Module StringFacts.
Import JS Spec.

Lemma prefix_spec (p s : string) :
  String.prefix p s = true ↔ ∃ post, s = p +:+ post.
Proof.
  revert s. induction p as [|c p IH]; intros s.
  - split; [intros _; by exists s | by destruct s].
  - destruct s as [|d s]; simpl.
    + split; [done | intros [post H]; discriminate H].
    + destruct (ascii_dec c d) as [->|Hne].
      * rewrite IH. split; intros [post H]; exists post.
        -- by rewrite H.
        -- simpl in H. by injection H.
      * split; [done | intros [post H]; simpl in H; injection H; congruence].
Qed.

Lemma includes_spec (s sub : string) :
  includes s sub = true ↔ ∃ pre post, s = pre +:+ sub +:+ post.
Proof.
  induction s as [|c s IH]; cbn [includes].
  - rewrite orb_false_r, prefix_spec. split.
    + intros [post H]. by exists EmptyString, post.
    + intros [pre [post H]]. destruct pre; [by exists post | discriminate H].
  - rewrite orb_true_iff, prefix_spec, IH. split.
    + intros [[post H] | [pre [post H]]].
      * by exists EmptyString, post.
      * exists (String c pre), post. simpl. by rewrite H.
    + intros [pre [post H]]. destruct pre as [|d pre].
      * left. by exists post.
      * right. exists pre, post. simpl in H. by injection H.
Qed.

Lemma toLowerCase_app (a b : string) :
  toLowerCase (a +:+ b) = toLowerCase a +:+ toLowerCase b.
Proof. induction a as [|c a IH]; simpl; [done | by rewrite IH]. Qed.

Lemma toLowerCase_split (t x y : string) :
  toLowerCase t = x +:+ y →
  ∃ a b, t = a +:+ b ∧ toLowerCase a = x ∧ toLowerCase b = y.
Proof.
  revert t. induction x as [|c x IH]; intros t H; simpl in H.
  - by exists EmptyString, t.
  - destruct t as [|d t]; [discriminate H |]. simpl in H.
    injection H as Hc Ht. destruct (IH _ Ht) as (a & b & -> & Ha & Hb).
    exists (String d a), b. simpl. by rewrite Hc, Ha.
Qed.

(** What the filters compute is the relation of the specification. *)
Lemma includes_lower_spec (t q : string) :
  includes (toLowerCase t) (toLowerCase q) = true ↔ containsCI t q.
Proof.
  rewrite includes_spec. split.
  - intros (x & z & H).
    apply toLowerCase_split in H as (pre & r & -> & _ & H).
    apply toLowerCase_split in H as (mid & post & -> & Hm & _).
    by exists pre, mid, post.
  - intros (pre & mid & post & -> & H).
    exists (toLowerCase pre), (toLowerCase post).
    by rewrite !toLowerCase_app, H.
Qed.

Lemma includes_empty (s : string) : includes s "" = true.
Proof. by destruct s. Qed.

End StringFacts.

(** ** Sorting *)

Module SortFacts.
Import JS Spec.

Section Sort.
Context {A : Type} (compareFn : A → A → Z).

Lemma insertSorted_perm (x : A) (l : list A) :
  Permutation (insertSorted compareFn x l) (x :: l).
Proof.
  induction l as [|y l IH]; simpl; [done |].
  destruct (compareFn x y <=? 0)%Z; [done |].
  rewrite IH. apply perm_swap.
Qed.

Lemma sort_perm (l : list A) : Permutation (sort compareFn l) l.
Proof.
  induction l as [|x l IH]; simpl; [done |].
  by rewrite insertSorted_perm, IH.
Qed.

Lemma sort_In (x : A) (l : list A) : In x (sort compareFn l) ↔ In x l.
Proof.
  split; apply Permutation_in; [|symmetry]; apply sort_perm.
Qed.

Lemma insertSorted_sorted (x : A) (l : list A) :
  Consistent compareFn →
  StronglySorted (before compareFn) l →
  StronglySorted (before compareFn) (insertSorted compareFn x l).
Proof.
  intros [Htot Htrans]. induction 1 as [|y l Hl IH Hy]; simpl.
  - repeat constructor.
  - destruct (compareFn x y <=? 0)%Z eqn:E.
    + apply Z.leb_le in E. constructor; [by constructor |].
      constructor; [done |].
      eapply Forall_impl; [exact Hy |]. intros z Hz. by eapply Htrans.
    + apply Z.leb_gt in E. constructor; [done |].
      eapply Permutation_Forall; [symmetry; apply insertSorted_perm |].
      constructor; [by apply Htot | done].
Qed.

Lemma sort_sorted (l : list A) :
  Consistent compareFn → StronglySorted (before compareFn) (sort compareFn l).
Proof.
  intros H. induction l as [|x l IH]; simpl; [constructor |].
  by apply insertSorted_sorted.
Qed.
End Sort.

End SortFacts.

(** ** The favorites store *)

Module StoreFacts.
Import JSON.

Lemma Qred_inject_Z (n : Z) : Qred (inject_Z n) = inject_Z n.
Proof.
  unfold inject_Z, Qred.
  pose proof (Z.ggcd_gcd n 1) as Hg.
  pose proof (Z.ggcd_correct_divisors n 1) as Hd.
  destruct (Z.ggcd n 1) as [g [a b]]. simpl in *.
  rewrite Z.gcd_1_r in Hg. subst g. destruct Hd as [Ha Hb].
  rewrite Z.mul_1_l in Ha, Hb. by subst.
Qed.

Lemma keyOf_Photo (p : Photo) : keyOf (Photo_json p) = Some (keyOfId (id p)).
Proof. unfold keyOf, propertyKey. simpl. by rewrite Qred_inject_Z. Qed.

Lemma truthy_Photo (p : Photo) : truthy (Some (Photo_json p)) = true.
Proof. done. Qed.

(** The values of a store are the values of its entries. *)
Lemma elem_of_Object_values (s : FavStore) (v : value) :
  In v (Object_values s) ↔ ∃ k, s !! k = Some v.
Proof.
  unfold Object_values. rewrite in_map_iff. split.
  - intros ([k v'] & <- & H). exists k.
    apply SortFacts.sort_In in H. by apply elem_of_map_to_list, list_elem_of_In.
  - intros [k H]. exists (k, v). split; [done |].
    by apply SortFacts.sort_In, list_elem_of_In, elem_of_map_to_list.
Qed.

Lemma keyed_empty : keyed ∅.
Proof. intros k v H. by rewrite lookup_empty in H. Qed.

Lemma keyed_insert (s : FavStore) (k : Q) (v : value) :
  keyOf v = Some k → keyed s → keyed (<[k := v]> s).
Proof.
  intros Hv Hs j w. rewrite lookup_insert. case_decide; [naive_solver | apply Hs].
Qed.

Lemma keyed_delete (s : FavStore) (k : Q) : keyed s → keyed (delete k s).
Proof.
  intros Hs j w. rewrite lookup_delete. case_decide; [done | apply Hs].
Qed.

Lemma keyed_toggleFav (p : Photo) (s : FavStore) :
  keyed s → keyed (Gallery.toggleFav p s).
Proof.
  intros Hs. unfold Gallery.toggleFav, setFavs. case_match.
  - by apply keyed_delete.
  - by apply keyed_insert; [apply keyOf_Photo |].
Qed.

Lemma keyed_mergeItem (s : FavStore) (item : value) :
  keyed s → keyed (Favorites.mergeItem s item).
Proof.
  intros Hs. unfold Favorites.mergeItem.
  destruct (Favorites.accepts item); [|done].
  destruct (get "id" item) as [[]|] eqn:E; try done.
  apply keyed_insert; [|done]. unfold keyOf. by rewrite E.
Qed.

Lemma keyed_mergeItems (arr : list value) (s : FavStore) :
  keyed s → keyed (Favorites.mergeItems arr s).
Proof.
  unfold Favorites.mergeItems. revert s.
  induction arr as [|item arr IH]; intros s Hs; simpl; [done |].
  by apply IH, keyed_mergeItem.
Qed.

Lemma keyed_removeOne (p : Photo) (s : FavStore) :
  keyed s → keyed (Favorites.removeOne p s).
Proof. apply keyed_delete. Qed.

Lemma keyed_clearAll (b : bool) (s : FavStore) :
  keyed s → keyed (Favorites.clearAll b s).
Proof.
  intros Hs. unfold Favorites.clearAll.
  repeat case_match; auto using keyed_empty.
Qed.

End StoreFacts.

(** ** Toggling a favorite *)

Module ToggleFacts.
Import JSON Spec Samples StoreFacts.

Lemma toggleFav_Some (p : Photo) (s : FavStore) :
  PhotoDetail.toggleFav (Some p) s = Gallery.toggleFav p s.
Proof. done. Qed.

(** Claim C1, as stated, fails: the store that importing [myCat] into
    the empty store gives holds it under id 1; toggling the photo [cat],
    which has that id, twice leaves [cat] in its place. *)
Lemma toggleFav_twice_not_identity :
  Favorites.mergeItems [myCat] ∅ = {[keyOfId 1 := myCat]}
  ∧ Gallery.toggleFav cat (Gallery.toggleFav cat {[keyOfId 1 := myCat]})
      = {[keyOfId 1 := Photo_json cat]}
  ∧ Gallery.toggleFav cat (Gallery.toggleFav cat {[keyOfId 1 := myCat]})
      ≠ {[keyOfId 1 := myCat]}.
Proof.
  split; [by vm_compute |]. split; [by vm_compute |].
  intros H. apply (f_equal (λ m : FavStore, m !! keyOfId 1)) in H.
  vm_compute in H. discriminate H.
Qed.

(** Claim C1, amended: toggling twice with the same photo [p] gives back
    the store when [p.id] was not a key or the entry under it was [p]
    itself; when [p.id] was the key of another object the first toggle
    removes that object and the second inserts [p], so the store ends
    with [p] under [p.id] and every other entry as it was. The same holds
    for the toggle of the detail page. *)
Theorem toggleFav_twice (p : Photo) (s : FavStore) :
  let k := keyOfId (id p) in
  let s2 := Gallery.toggleFav p (Gallery.toggleFav p s) in
  s2 = match s !! k with
       | None => s
       | Some v => if truthy (Some v) then <[k := Photo_json p]> s else delete k s
       end
  ∧ (s !! k = None ∨ s !! k = Some (Photo_json p) → s2 = s)
  ∧ (∀ j, j ≠ k → s2 !! j = s !! j)
  ∧ PhotoDetail.toggleFav (Some p) (PhotoDetail.toggleFav (Some p) s) = s2.
Proof.
  intros k s2.
  assert (Heq : s2 = match s !! k with
                     | None => s
                     | Some v => if truthy (Some v) then <[k := Photo_json p]> s
                                 else delete k s
                     end).
  { subst s2 k. unfold Gallery.toggleFav, setFavs.
    destruct (s !! keyOfId (id p)) as [v|] eqn:E.
    - destruct (truthy (Some v)) eqn:T.
      + rewrite lookup_delete_eq. simpl. by rewrite insert_delete_eq.
      + rewrite lookup_insert_eq, truthy_Photo. by rewrite delete_insert_eq.
    - simpl. rewrite lookup_insert_eq, truthy_Photo.
      rewrite delete_insert_eq. by apply delete_id. }
  split; [exact Heq |]. split; [|split; [|done]].
  - rewrite Heq. intros [H | H]; rewrite H; [done |].
    rewrite truthy_Photo. by apply insert_id.
  - intros j Hj. rewrite Heq. destruct (s !! k) as [v|]; [|done].
    destruct (truthy (Some v)).
    + by rewrite lookup_insert_ne.
    + by rewrite lookup_delete_ne.
Qed.

Lemma toggleFav_twice_witness :
  Gallery.toggleFav cat (Gallery.toggleFav cat {[keyOfId 2 := Photo_json dog]})
    = {[keyOfId 2 := Photo_json dog]}.
Proof.
  apply (toggleFav_twice cat {[keyOfId 2 := Photo_json dog]}).
  left. vm_compute. reflexivity.
Defined.

End ToggleFacts.

(** ** Writing and reading back the exported text *)

Module PrinterFacts.
Import JSON Parser Printer Spec.

Lemma digitValue_digitChar (d : N) :
  (d < 10)%N → JS.digitValue 10 (digitChar d) = Some (Z.of_N d).
Proof.
  intros H.
  assert (d = 0 ∨ d = 1 ∨ d = 2 ∨ d = 3 ∨ d = 4 ∨ d = 5 ∨ d = 6 ∨ d = 7 ∨
          d = 8 ∨ d = 9)%N as Hd by lia.
  repeat destruct Hd as [-> | Hd]; try subst d; reflexivity.
Qed.

Lemma log2_div10 (n : N) : (10 <= n)%N → (N.log2 (n / 10) < N.log2 n)%N.
Proof.
  intros H.
  assert (n / 10 <= n / 2)%N as Hle by (apply N.div_le_compat_l; lia).
  apply N.log2_le_mono in Hle.
  assert (N.log2 (n / 2) = N.log2 n - 1)%N as Hh.
  { change 2%N with (2 ^ 1)%N. rewrite <- N.shiftr_div_pow2. apply N.log2_shiftr. }
  assert (0 < N.log2 n)%N by (apply N.log2_pos; lia).
  lia.
Qed.

(** Reading the digits just written gives the number back. *)
Lemma readDigits_digitsOf (f : nat) (n : N) :
  (N.log2 n < N.of_nat f)%N →
  ∃ k, ∀ acc count tail,
    JS.readDigits 10 acc count (digitsOf f n tail) =
      JS.readDigits 10 (acc * 10 ^ Z.of_nat (S k) + Z.of_N n) (count + S k) tail.
Proof.
  revert n. induction f as [|f IH]; intros n Hf; [lia |].
  simpl. destruct (n <? 10)%N eqn:E.
  - apply N.ltb_lt in E. exists 0%nat. intros acc count tail. simpl.
    rewrite digitValue_digitChar by done.
    f_equal; lia.
  - apply N.ltb_ge in E.
    destruct (IH (n / 10)%N) as [k Hk].
    { pose proof (log2_div10 n E). lia. }
    exists (S k). intros acc count tail. rewrite Hk. simpl.
    rewrite digitValue_digitChar by (apply N.mod_lt; lia).
    pose proof (N.div_mod' n 10) as Hn.
    f_equal; try lia.
    rewrite (Nat2Z.inj_succ (S k)), Z.pow_succ_r by lia.
    change (Z.of_N 10) with 10%Z. lia.
Qed.

Lemma digitsOf_app (f : nat) (n : N) (t tail : list ascii) :
  digitsOf f n t ++ tail = digitsOf f n (t ++ tail).
Proof.
  revert n t. induction f as [|f IH]; intros n t; simpl; [done |].
  destruct (n <? 10)%N; [done |]. by rewrite IH.
Qed.

(** The first digit written is [0] only for the number 0. *)
Lemma digitsOf_head (f : nat) (n : N) (tail : list ascii) :
  (N.log2 n < N.of_nat f)%N →
  ∃ d r, digitsOf f n tail = digitChar d :: r ∧ (d < 10)%N ∧ (d = 0%N → n = 0%N).
Proof.
  revert n tail. induction f as [|f IH]; intros n tail Hf; [lia |].
  simpl. destruct (n <? 10)%N eqn:E.
  - apply N.ltb_lt in E. by exists n, tail.
  - apply N.ltb_ge in E.
    destruct (IH (n / 10)%N (digitChar (n mod 10) :: tail)) as (d & r & -> & Hd & H0).
    { pose proof (log2_div10 n E). lia. }
    exists d, r. split; [done |]. split; [done |]. intros ->.
    specialize (H0 eq_refl).
    assert (1 <= n / 10)%N by (apply N.div_le_lower_bound; lia). lia.
Qed.

Lemma digitChar_cases (P : ascii → Prop) :
  P "0"%char → P "1"%char → P "2"%char → P "3"%char → P "4"%char →
  P "5"%char → P "6"%char → P "7"%char → P "8"%char → P "9"%char →
  ∀ d, (d < 10)%N → P (digitChar d).
Proof.
  intros H0 H1 H2 H3 H4 H5 H6 H7 H8 H9 d H.
  assert (d = 0 ∨ d = 1 ∨ d = 2 ∨ d = 3 ∨ d = 4 ∨ d = 5 ∨ d = 6 ∨ d = 7 ∨
          d = 8 ∨ d = 9)%N as Hd by lia.
  repeat destruct Hd as [-> | Hd]; try subst d; assumption.
Qed.

Lemma afterValue_cases (tail : list ascii) :
  afterValue tail = true →
  ∃ r, tail = ","%char :: r ∨ tail = newline :: r.
Proof.
  destruct tail as [|c r]; [done |]. simpl. intros H. exists r.
  apply orb_true_iff in H as [H | H]; apply Ascii.eqb_eq in H; subst; auto.
Qed.

Lemma parseUnsigned_natural (neg : bool) (n : N) (tail : list ascii) :
  afterValue tail = true →
  parseUnsigned neg (naturalText n ++ tail) =
    Some (inject_Z (if neg then - Z.of_N n else Z.of_N n), tail).
Proof.
  intros Ht. destruct (N.eq_dec n 0%N) as [-> | Hn].
  - apply afterValue_cases in Ht as [r [-> | ->]]; by destruct neg.
  - unfold naturalText. rewrite digitsOf_app. simpl app.
    set (f := S (N.to_nat (N.log2 n))).
    assert (Hf : (N.log2 n < N.of_nat f)%N) by lia.
    destruct (readDigits_digitsOf f n Hf) as [k Hk].
    destruct (digitsOf_head f n tail Hf) as (d & r & Hh & Hd & H0).
    assert (Hz : leadingZero (digitsOf f n tail) = false).
    { rewrite Hh. simpl.
      assert (d ≠ 0%N) as Hd0 by (intros ->; by apply Hn, H0).
      assert (d = 1 ∨ d = 2 ∨ d = 3 ∨ d = 4 ∨ d = 5 ∨ d = 6 ∨ d = 7 ∨
              d = 8 ∨ d = 9)%N as Hc by lia.
      clear -Hc. repeat destruct Hc as [-> | Hc]; try subst d; reflexivity. }
    unfold parseUnsigned. rewrite Hk, Hz. clear Hk Hz Hh.
    assert (Hm : ∀ m : Z, JS.scale10 m (0 - Z.of_nat 0) = inject_Z m).
    { intros m. unfold JS.scale10. simpl. by rewrite Z.mul_1_r. }
    apply afterValue_cases in Ht as [t [-> | ->]]; simpl;
      unfold finishNumber; simpl; rewrite Hm; by destruct neg.
Qed.

Lemma parseNumber_integer (z : Z) (tail : list ascii) :
  afterValue tail = true →
  parseNumber (integerText z ++ tail) = Some (inject_Z z, tail).
Proof.
  intros Ht. destruct z as [|p|p]; simpl integerText.
  - pose proof (parseUnsigned_natural false 0 tail Ht) as H.
    by apply afterValue_cases in Ht as [t [-> | ->]].
  - pose proof (parseUnsigned_natural false (Npos p) tail Ht) as H.
    unfold naturalText in *. rewrite digitsOf_app in *. simpl app in *.
    set (f := S (N.to_nat (N.log2 (N.pos p)))) in *.
    destruct (digitsOf_head f (Npos p) tail ltac:(lia)) as (d & r & Hh & Hd & _).
    rewrite Hh in *. unfold parseNumber.
    assert ((digitChar d =? "-")%char = false) as ->; [|exact H].
    clear Hh H. revert d Hd.
    by apply (digitChar_cases (λ c, (c =? "-")%char = false)).
  - simpl. apply (parseUnsigned_natural true (Npos p) tail Ht).
Qed.

(** Reading an escaped character gives the character back. *)
Lemma parseChars_escapeChar (c : ascii) (tail : list ascii) :
  parseChars (escapeChar c ++ tail) =
    match parseChars tail with
    | Some (t, rest) => Some (String c t, rest)
    | None => None
    end.
Proof.
  destruct c as [[] [] [] [] [] [] [] []]; reflexivity.
Qed.

Lemma parseChars_escaped (cs : list ascii) (rest : list ascii) :
  parseChars (flat_map escapeChar cs ++ quote :: rest) =
    Some (string_of_list_ascii cs, rest).
Proof.
  induction cs as [|c cs IH]; [done |].
  simpl flat_map. rewrite <- app_assoc, parseChars_escapeChar, IH. done.
Qed.

Lemma parseChars_quoteText (s : string) (rest : list ascii) :
  ∃ body, quoteText s ++ rest = quote :: body ∧ parseChars body = Some (s, rest).
Proof.
  exists (flat_map escapeChar (lit s) ++ quote :: rest). split.
  - unfold quoteText. simpl. by rewrite <- app_assoc.
  - rewrite parseChars_escaped. unfold lit.
    by rewrite string_of_list_ascii_of_string.
Qed.

(** *** Values after a colon *)

Lemma parseValue_string (f : nat) (s : string) (rest : list ascii) :
  parseValue (S f) (" "%char :: quoteText s ++ rest) = Some (JStr s, rest).
Proof.
  destruct (parseChars_quoteText s rest) as (body & -> & H).
  simpl. by rewrite H.
Qed.

Lemma integerText_head (z : Z) (tail : list ascii) :
  ∃ c r, integerText z ++ tail = c :: r ∧
         (c = "-"%char ∨ ∃ d, (d < 10)%N ∧ c = digitChar d).
Proof.
  assert (Hn : ∀ n, ∃ c r, naturalText n ++ tail = c :: r ∧
                           ∃ d, (d < 10)%N ∧ c = digitChar d).
  { intros n. unfold naturalText. rewrite digitsOf_app.
    destruct (digitsOf_head (S (N.to_nat (N.log2 n))) n ([] ++ tail) ltac:(lia))
      as (d & r & -> & Hd & _).
    exists (digitChar d), r. split; [done |]. by exists d. }
  destruct z as [|p|p]; simpl integerText.
  - destruct (Hn 0%N) as (c & r & ? & ?). by exists c, r; auto.
  - destruct (Hn (Npos p)) as (c & r & ? & ?). by exists c, r; auto.
  - simpl. eexists _, _. split; [done | by left].
Qed.

Lemma parseValue_number_start (f : nat) (c : ascii) (r : list ascii) :
  (c = "-"%char ∨ ∃ d, (d < 10)%N ∧ c = digitChar d) →
  parseValue (S f) (" "%char :: c :: r) =
    match parseNumber (c :: r) with
    | Some (q, rest) => Some (JNum q, rest)
    | None => None
    end.
Proof.
  intros [-> | (d & Hd & ->)]; [done |]. revert d Hd.
  by apply (digitChar_cases (λ c, parseValue (S f) (" "%char :: c :: r) =
              match parseNumber (c :: r) with
              | Some (q, rest) => Some (JNum q, rest)
              | None => None
              end)).
Qed.

Lemma parseValue_integer (f : nat) (z : Z) (tail : list ascii) :
  afterValue tail = true →
  parseValue (S f) (" "%char :: integerText z ++ tail) =
    Some (JNum (inject_Z z), tail).
Proof.
  intros Ht. pose proof (parseNumber_integer z tail Ht) as H.
  destruct (integerText_head z tail) as (c & r & E & Hc).
  rewrite E in *. by rewrite parseValue_number_start, H.
Qed.

(** *** The text of an array of photos *)

Lemma photoText_app (p : Photo) (tail : list ascii) :
  photoText p [] ++ tail = photoText p tail.
Proof.
  unfold photoText, memberText, closeObject. simpl.
  repeat (rewrite <- app_assoc; simpl). done.
Qed.

Lemma stringifyAt_Photo (p : Photo) :
  stringifyAt [" "%char; " "%char] (Photo_json p) = Some (photoText p []).
Proof.
  unfold Photo_json. cbn [stringifyAt numberText inject_Z Qden Qnum Pos.eqb
    List.map allSome option_map joinLines memberOf].
  f_equal. unfold photoText, memberText, closeObject. simpl.
  repeat (rewrite <- app_assoc; simpl). done.
Qed.

Lemma allSome_photos (ps : list Photo) :
  allSome (stringifyAt [" "%char; " "%char] <$> (Photo_json <$> ps)) =
    Some ((λ p, photoText p []) <$> ps).
Proof.
  induction ps as [|p ps IH]; [done |].
  rewrite !fmap_cons. cbn [allSome].
  by rewrite stringifyAt_Photo, IH.
Qed.

Lemma joinLines_photos (ps : list Photo) (tail : list ascii) :
  joinLines [" "%char; " "%char] ((λ p, photoText p []) <$> ps) ++ tail =
    photosText ps tail.
Proof.
  induction ps as [|p ps IH]; [done |].
  rewrite fmap_cons. cbn [joinLines photosText].
  rewrite <- !app_comm_cons, <- !app_assoc, IH, app_nil_l.
  rewrite photoText_app. by destruct ps.
Qed.

Lemma stringify_photos (ps : list Photo) :
  stringify (JArr (Photo_json <$> ps)) = Some (string_of_list_ascii (arrayText ps)).
Proof.
  unfold stringify. destruct ps as [|p ps]; [done |].
  change (stringifyAt [] (JArr (Photo_json <$> p :: ps))) with
    (match allSome (stringifyAt [" "%char; " "%char] <$>
                      (Photo_json <$> p :: ps)) with
     | Some texts =>
         Some ("["%char :: joinLines [" "%char; " "%char] texts ++
               newline :: [] ++ ["]"%char])
     | None => None
     end).
  rewrite allSome_photos, app_nil_l. by rewrite joinLines_photos.
Qed.

(** *** Reading the text back *)

Section Members.
Variable pv : list ascii → option (value * list ascii).

Lemma parseMembers_comma (n : nat) (k : string) (vt rest : list ascii)
    (v : value) (acc : list (string * value)) :
  pv (" "%char :: vt ++ ","%char :: rest) = Some (v, ","%char :: rest) →
  parseMembers pv (S n) (memberText k vt (","%char :: rest)) acc =
    parseMembers pv n rest (setField k v acc).
Proof.
  intros Hv. unfold memberText.
  destruct (parseChars_quoteText k (":"%char :: " "%char :: vt ++ ","%char :: rest))
    as (body & -> & Hk).
  cbn [parseMembers skipWs isWs]. simpl JS.code. simpl.
  rewrite Hk. simpl. by rewrite Hv.
Qed.

Lemma parseMembers_last (n : nat) (k : string) (vt rest : list ascii)
    (v : value) (acc : list (string * value)) :
  pv (" "%char :: vt ++ closeObject rest) = Some (v, closeObject rest) →
  parseMembers pv (S n) (memberText k vt (closeObject rest)) acc =
    Some (setField k v acc, rest).
Proof.
  intros Hv. unfold memberText.
  destruct (parseChars_quoteText k (":"%char :: " "%char :: vt ++ closeObject rest))
    as (body & -> & Hk).
  cbn [parseMembers skipWs isWs]. simpl JS.code. simpl.
  rewrite Hk. simpl. by rewrite Hv.
Qed.
End Members.

Lemma parseValue_open_object (f : nat) (r r0 : list ascii) :
  skipWs r = quote :: r0 →
  parseValue (S f) (newline :: " "%char :: " "%char :: "{"%char :: r) =
    match parseMembers (parseValue f) (List.length r) r [] with
    | Some (fs, rest) => Some (JObj fs, rest)
    | None => None
    end.
Proof. intros H. simpl. by rewrite H. Qed.

Lemma skipWs_memberText (k : string) (vt tail : list ascii) :
  ∃ r0, skipWs (memberText k vt tail) = quote :: r0.
Proof. unfold memberText, quoteText. simpl. by eexists. Qed.

Lemma length_memberText (k : string) (vt tail : list ascii) :
  ∃ n, List.length (memberText k vt tail) = S (S (S (S (S n)))).
Proof. unfold memberText. simpl. by eexists. Qed.

Lemma parseValue_Photo (f : nat) (p : Photo) (tail : list ascii) :
  parseValue (S (S f)) (newline :: " "%char :: " "%char :: photoText p tail) =
    Some (Photo_json p, tail).
Proof.
  unfold photoText.
  destruct (skipWs_memberText "albumId" (integerText (albumId p))
    (","%char ::
     memberText "id" (integerText (id p)) (","%char ::
     memberText "title" (quoteText (title p)) (","%char ::
     memberText "url" (quoteText (url p)) (","%char ::
     memberText "thumbnailUrl" (quoteText (thumbnailUrl p)) (closeObject tail))))))
    as [r0 Hr].
  rewrite (parseValue_open_object _ _ _ Hr). clear Hr.
  destruct (length_memberText "albumId" (integerText (albumId p))
    (","%char ::
     memberText "id" (integerText (id p)) (","%char ::
     memberText "title" (quoteText (title p)) (","%char ::
     memberText "url" (quoteText (url p)) (","%char ::
     memberText "thumbnailUrl" (quoteText (thumbnailUrl p)) (closeObject tail))))))
    as [n ->].
  rewrite parseMembers_comma with (v := JNum (inject_Z (albumId p)))
    by by apply parseValue_integer.
  rewrite parseMembers_comma with (v := JNum (inject_Z (id p)))
    by by apply parseValue_integer.
  rewrite parseMembers_comma with (v := JStr (title p))
    by apply parseValue_string.
  rewrite parseMembers_comma with (v := JStr (url p))
    by apply parseValue_string.
  rewrite parseMembers_last with (v := JStr (thumbnailUrl p))
    by apply parseValue_string.
  done.
Qed.

Lemma length_photoText (p : Photo) (x : list ascii) :
  (List.length x <= List.length (photoText p x))%nat.
Proof.
  unfold photoText, memberText, closeObject.
  repeat (rewrite ?length_app, ?length_cons). lia.
Qed.

Lemma length_photosText (ps : list Photo) (tail : list ascii) :
  (List.length ps <= List.length (photosText ps tail))%nat.
Proof.
  induction ps as [|p ps IH]; [simpl; lia |].
  cbn [photosText]. rewrite !length_cons.
  destruct ps as [|q ps].
  - pose proof (length_photoText p (photosText [] tail)). simpl. lia.
  - pose proof (length_photoText p (","%char :: photosText (q :: ps) tail)) as Hp.
    rewrite length_cons in Hp. lia.
Qed.

Lemma parseElements_photos (f : nat) (ps : list Photo) (n : nat)
    (rest : list ascii) :
  ps ≠ [] → (List.length ps <= n)%nat →
  parseElements (parseValue (S (S f))) n (photosText ps (newline :: "]"%char :: rest)) =
    Some (Photo_json <$> ps, rest).
Proof.
  revert n. induction ps as [|p ps IH]; intros n Hne Hn; [done |].
  destruct n as [|n]; [simpl in Hn; lia |].
  cbn [photosText parseElements]. rewrite parseValue_Photo.
  destruct ps as [|q ps].
  - done.
  - cbn [skipWs isWs]. simpl JS.code. simpl.
    rewrite IH; [done | done | simpl in *; lia].
Qed.

(** Reading what [stringify] wrote for an array of photos gives the
    array back. *)
Lemma parseValue_open_array (f : nat) (r r0 : list ascii) :
  skipWs r = "{"%char :: r0 →
  parseValue (S f) ("["%char :: r) =
    match parseElements (parseValue f) (List.length r) r with
    | Some (vs, rest) => Some (JArr vs, rest)
    | None => None
    end.
Proof. intros H. simpl. by rewrite H. Qed.

Lemma parse_stringify_photos (ps : list Photo) :
  parse (string_of_list_ascii (arrayText ps)) = Some (JArr (Photo_json <$> ps)).
Proof.
  unfold parse, lit. rewrite list_ascii_of_string_of_list_ascii.
  destruct ps as [|p ps]; [reflexivity |].
  unfold arrayText.
  pose proof (length_photosText (p :: ps) [newline; "]"%char]) as Hlen.
  assert (∃ r0, skipWs (photosText (p :: ps) [newline; "]"%char]) = "{"%char :: r0)
    as [r0 Hr0].
  { cbn [photosText]. unfold photoText. simpl. by eexists. }
  assert (∃ f, List.length (photosText (p :: ps) [newline; "]"%char]) = S (S f))
    as [f Hf].
  { cbn [photosText]. rewrite !length_cons. by eexists. }
  rewrite length_cons, (parseValue_open_array _ _ _ Hr0).
  rewrite Hf at 1.
  rewrite parseElements_photos; [reflexivity | done | done].
Qed.

End PrinterFacts.

(** ** Import and export of favorites *)

Module ImportFacts.
Import JSON Spec Samples StoreFacts Favorites.

Lemma accepts_keyOf (item : value) :
  accepts item = true → ∃ q, get "id" item = Some (JNum q) ∧ keyOf item = Some (propertyKey q).
Proof.
  unfold accepts, keyOf. rewrite !andb_true_iff. intros [[[[_ H] _] _] _].
  destruct (get "id" item) as [[]|]; try done. by eexists.
Qed.

Lemma mergeItem_lookup (s : FavStore) (item : value) (k : Q) :
  mergeItem s item !! k =
    if accepts item && bool_decide (keyOf item = Some k) then Some item else s !! k.
Proof.
  unfold mergeItem. destruct (accepts item) eqn:A; [|done].
  destruct (accepts_keyOf _ A) as (q & Hid & Hk). rewrite Hid, Hk. simpl.
  rewrite lookup_insert. case_decide as E.
  - subst k. by rewrite bool_decide_eq_true_2.
  - rewrite bool_decide_eq_false_2; [done | congruence].
Qed.

Lemma mergeItems_lookup (arr : list value) (s : FavStore) (k : Q) :
  mergeItems arr s !! k =
    match lastKept k arr with
    | Some v => Some v
    | None => s !! k
    end.
Proof.
  unfold mergeItems. revert s.
  induction arr as [|item r IH]; intros s; simpl; [done |].
  rewrite IH. destruct (lastKept k r); [done |].
  rewrite mergeItem_lookup. by case_match.
Qed.

Lemma lastKept_Some (k : Q) (arr : list value) (v : value) :
  lastKept k arr = Some v → In v arr ∧ accepts v = true ∧ keyOf v = Some k.
Proof.
  induction arr as [|item r IH]; simpl; [done |].
  destruct (lastKept k r) as [w|].
  - intros [= ->]. destruct (IH eq_refl) as (H1 & H2 & H3). auto.
  - destruct (accepts item) eqn:A; simpl; [|done].
    case_bool_decide; [|done]. intros [= ->]. auto.
Qed.

Lemma lastKept_is_Some (k : Q) (arr : list value) (item : value) :
  In item arr → accepts item = true → keyOf item = Some k →
  is_Some (lastKept k arr).
Proof.
  induction arr as [|x r IH]; simpl; [done |].
  intros [-> | H] A K.
  - destruct (lastKept k r); [done |].
    rewrite A, bool_decide_eq_true_2 by done. done.
  - destruct (IH H A K) as [v ->]. done.
Qed.

(** Importing objects the store already holds changes nothing. *)
Lemma mergeItems_own (arr : list value) (s : FavStore) :
  keyed s → (∀ v, In v arr → ∃ k, s !! k = Some v) → mergeItems arr s = s.
Proof.
  intros Hs Harr. apply map_eq. intros k. rewrite mergeItems_lookup.
  destruct (lastKept k arr) as [v|] eqn:E; [|done].
  apply lastKept_Some in E as (Hin & _ & Hk).
  destruct (Harr v Hin) as [j Hj].
  pose proof (Hs j v Hj) as Hj'. simpl in Hj'. congruence.
Qed.

Lemma payload_In {A} (shown every : list A) (x : A) :
  (∀ y, In y shown → In y every) → In x (payload shown every) → In x every.
Proof. unfold payload. case_match; auto. Qed.

(** Claim C2: for every favorites store (every entry stored under the id
    it carries), importing the array that export builds from the whole
    store, or from any part of it shown on the page, gives the store
    back; and for a store of photos so does importing the text of the
    exported file. *)
Theorem export_import_roundtrip (s : FavStore) :
  keyed s →
  mergeItems (all s) s = s
  ∧ (∀ shown, (∀ v, In v shown → In v (all s)) →
      mergeItems (payload shown (all s)) s = s)
  ∧ (∀ localeCompare photos q sortParam,
      all s = Photo_json <$> photos →
      ∃ text, exportText localeCompare photos q sortParam = Some text ∧
              onImportFile (Some text) s = (s, None)).
Proof.
  intros Hs.
  assert (Hown : ∀ arr, (∀ v, In v arr → In v (all s)) → mergeItems arr s = s).
  { intros arr H. apply mergeItems_own; [done |].
    intros v Hv. by apply elem_of_Object_values, H. }
  split; [by apply Hown |]. split.
  - intros shown H. apply Hown. intros v. by apply payload_In.
  - intros cmp photos q sortParam Hall.
    unfold exportText, exportJSON. rewrite PrinterFacts.stringify_photos.
    eexists. split; [reflexivity |].
    simpl. unfold importText. rewrite PrinterFacts.parse_stringify_photos.
    f_equal. apply Hown. intros v Hv. rewrite Hall.
    apply in_map_iff in Hv as (p & <- & Hp). apply in_map.
    apply payload_In in Hp; [done |]. intros y Hy.
    apply SortFacts.sort_In in Hy. case_match; [|done].
    by apply filter_In in Hy as [? _].
Qed.

Lemma export_import_roundtrip_witness :
  ∃ text, exportText byteCompare [cat; dog] "" None = Some text ∧
          onImportFile (Some text)
            {[keyOfId 1 := Photo_json cat; keyOfId 2 := Photo_json dog]}
          = ({[keyOfId 1 := Photo_json cat; keyOfId 2 := Photo_json dog]}, None).
Proof.
  apply (export_import_roundtrip
           {[keyOfId 1 := Photo_json cat; keyOfId 2 := Photo_json dog]}).
  - apply (bool_decide_unpack _). vm_compute. reflexivity.
  - vm_compute. reflexivity.
Defined.

(** Property X6: every store the pages can reach from the empty one, by
    stars on the Gallery, removals and Clear all on the Favorites page,
    and imports of any text, holds each of its entries under the id the
    entry carries. *)
Lemma reachable_keyed (s : FavStore) : reachable s → keyed s.
Proof.
  induction 1 as [|p s _ IH|p s _ IH|b s _ IH|text s _ IH].
  - apply keyed_empty.
  - by apply keyed_toggleFav.
  - by apply keyed_removeOne.
  - by apply keyed_clearAll.
  - unfold importText. repeat case_match; simpl; try done.
    by apply keyed_mergeItems.
Qed.

(** *** Lenient elements, strict envelope *)

Lemma matchesPhoto_accepts (item : value) :
  matchesPhoto item = true → accepts item = true.
Proof.
  unfold matchesPhoto, accepts, nonEmptyString.
  rewrite !andb_true_iff. intros [[[Hid Hu] Ht] Hn].
  destruct item as [| | | | |fields]; try done. simpl in *.
  destruct (lookupField "url" fields) as [[]|]; try done.
  destruct (lookupField "thumbnailUrl" fields) as [[]|]; try done.
  destruct (lookupField "title" fields) as [[]|]; try done.
Qed.

(** Claim C3, as stated, fails: an element whose url, thumbnailUrl and
    title are a number, a boolean and an array does not match Photo, and
    yet the import stores it. *)
Lemma import_keeps_untyped_fields :
  matchesPhoto oddObject = false
  ∧ onImportFile (Some oddText) ∅ = ({[keyOfId 7 := oddObject]}, None).
Proof. split; [done | by vm_compute]. Qed.

(** Claim C3, amended: the import of an array keeps the elements whose id
    is a number and whose url, thumbnailUrl and title are truthy, which
    every element that structurally matches Photo is, and skips the others
    without any error; the types of url, thumbnailUrl and title are not
    checked. Afterwards each key holds the last kept element carrying it,
    or what the store held before: nothing that was skipped is stored and
    no entry of the store is removed. Importing one valid and one garbage
    element into the empty store leaves exactly the valid one. *)
Theorem import_lenient (s : FavStore) (arr : list value) :
  (∀ k, mergeItems arr s !! k =
          match lastKept k arr with Some v => Some v | None => s !! k end)
  ∧ (∀ item, In item arr → accepts item = true →
       ∃ k v, keyOf item = Some k ∧ mergeItems arr s !! k = Some v ∧
              accepts v = true ∧ keyOf v = Some k)
  ∧ (∀ item, matchesPhoto item = true → accepts item = true)
  ∧ (∀ k v, mergeItems arr s !! k = Some v →
       s !! k = Some v ∨ (In v arr ∧ accepts v = true ∧ keyOf v = Some k))
  ∧ (∀ k, is_Some (s !! k) → is_Some (mergeItems arr s !! k))
  ∧ (∀ text, Parser.parse text = Some (JArr arr) →
       onImportFile (Some text) s = (mergeItems arr s, None))
  ∧ (∀ p, accepts (Photo_json p) =
            JS.nonEmpty (url p) && JS.nonEmpty (thumbnailUrl p) && JS.nonEmpty (title p))
  ∧ onImportFile (Some mixedText) ∅ = ({[keyOfId 1 := validObject]}, None).
Proof.
  split; [intros k; apply mergeItems_lookup |].
  split; [|split; [|split; [|split; [|split; [|split]]]]].
  - intros item Hin A. destruct (accepts_keyOf _ A) as (q & _ & Hk).
    exists (propertyKey q).
    destruct (lastKept_is_Some _ _ _ Hin A Hk) as [v Hv].
    exists v. rewrite mergeItems_lookup, Hv.
    apply lastKept_Some in Hv as (_ & ? & ?). auto.
  - apply matchesPhoto_accepts.
  - intros k v. rewrite mergeItems_lookup.
    destruct (lastKept k arr) as [w|] eqn:E; [|auto].
    intros [= ->]. right. by apply lastKept_Some.
  - intros k Hk. rewrite mergeItems_lookup. by destruct (lastKept k arr).
  - intros text H. simpl. unfold importText. by rewrite H.
  - intros p. unfold accepts. simpl. done.
  - vm_compute. reflexivity.
Qed.

Lemma import_lenient_witness :
  onImportFile (Some mixedText) {[keyOfId 2 := Photo_json dog]}
    = (mergeItems [validObject; JObj [("garbage", JBool true)]]
         {[keyOfId 2 := Photo_json dog]}, None).
Proof.
  apply (import_lenient {[keyOfId 2 := Photo_json dog]}
           [validObject; JObj [("garbage", JBool true)]]).
  vm_compute. reflexivity.
Defined.

(** What the test lets through and what it stops. *)
Example accepts_examples :
  accepts oddObject = true
  ∧ accepts (JObj [("id", JStr "7"); ("url", JStr "u"); ("thumbnailUrl", JStr "t");
                   ("title", JStr "x")]) = false
  ∧ accepts (JObj [("id", JNum 7); ("url", JStr "u"); ("thumbnailUrl", JStr "t");
                   ("title", JStr "")]) = false
  ∧ accepts (JObj [("id", JNum 7); ("url", JStr "u"); ("thumbnailUrl", JStr "t")]) = false
  ∧ accepts JNull = false.
Proof. done. Qed.

(** Claim C4: the import is rejected as a whole exactly when the text is
    not JSON or its top-level value is not an array; the message is
    alerted and the store is the one before. The text [not json], and the
    same text between double quotes, are both rejected. *)
Theorem import_rejected (s : FavStore) (text : string) :
  ((onImportFile (Some text) s).2 = Some importFailed ↔
     Parser.parse text = None ∨
     ∃ v, Parser.parse text = Some v ∧ isArray v = false)
  ∧ ((onImportFile (Some text) s).2 = None ↔
     ∃ arr, Parser.parse text = Some (JArr arr))
  ∧ ((onImportFile (Some text) s).2 ≠ None → (onImportFile (Some text) s).1 = s)
  ∧ onImportFile (Some "not json") s = (s, Some importFailed)
  ∧ onImportFile (Some (quoted "not json")) s = (s, Some importFailed).
Proof.
  simpl. unfold importText.
  split; [|split; [|split; [|split]]].
  - destruct (Parser.parse text) as [[]|]; simpl; split;
      try (intros [H | (v & H & Hv)]); try intros H;
      try done; try (right; by eexists); try (by left); by simplify_eq.
  - destruct (Parser.parse text) as [[]|]; simpl; split;
      try (intros (arr & H)); try intros H; try done; by eexists.
  - by destruct (Parser.parse text) as [[]|].
  - done.
  - done.
Qed.

Lemma import_rejected_witness :
  (onImportFile (Some "{}") {[keyOfId 1 := Photo_json cat]}).1
    = {[keyOfId 1 := Photo_json cat]}.
Proof.
  apply (import_rejected {[keyOfId 1 := Photo_json cat]} "{}").
  vm_compute. discriminate.
Defined.

End ImportFacts.

(** ** Filtering and sorting *)

Module FilterFacts.
Import JSON Spec Samples StringFacts SortFacts Favorites.

Lemma matches_needle (qDebounced : string) (p : Photo) :
  matches (needle qDebounced) p = true ↔ containsCI (title p) (JS.trim qDebounced).
Proof. apply includes_lower_spec. Qed.

(** With an empty needle the filter keeps everything, as the copy made
    by [slice] does. *)
Lemma filter_matches_empty (photos : list Photo) :
  List.filter (matches "") photos = photos.
Proof.
  induction photos as [|p l IH]; simpl; [done |].
  unfold matches at 1. by rewrite includes_empty, IH.
Qed.

Lemma filtered_eq localeCompare (photos : list Photo) (q : string)
    (sortParam : option string) :
  filtered localeCompare photos q sortParam =
    JS.sort (compareFn localeCompare (sortKeyOf sortParam))
      (List.filter (matches (needle q)) photos).
Proof.
  unfold filtered. destruct (needle q) eqn:E; simpl; [|done].
  by rewrite filter_matches_empty.
Qed.

Lemma filtered_In localeCompare (photos : list Photo) (q : string)
    (sortParam : option string) (p : Photo) :
  In p (filtered localeCompare photos q sortParam) ↔
  In p photos ∧ containsCI (title p) (JS.trim q).
Proof. by rewrite filtered_eq, sort_In, filter_In, matches_needle. Qed.








(** *** Order *)

Lemma StronglySorted_mono {A} (R S : A → A → Prop) (l : list A) :
  (∀ a b, R a b → S a b) → StronglySorted R l → StronglySorted S l.
Proof.
  intros H. induction 1 as [|x l Hl IH Hx]; constructor; [done |].
  eapply Forall_impl; [exact Hx | auto].
Qed.

Lemma Consistent_idAsc : Consistent (compareFn (λ _ _, 0%Z) idAsc).
Proof. split; simpl; intros; lia. Qed.

Lemma Consistent_idDesc : Consistent (compareFn (λ _ _, 0%Z) idDesc).
Proof. split; simpl; intros; lia. Qed.

Lemma Consistent_title localeCompare :
  Consistent localeCompare → Consistent (compareFn localeCompare byTitle).
Proof. intros [H1 H2]. split; simpl; eauto. Qed.

Lemma Consistent_byteCompare : Consistent byteCompare.
Proof.
  assert (Hle : ∀ a b, (byteCompare a b <= 0)%Z ↔ String.le a b).
  { intros a b. unfold byteCompare, String.le.
    destruct (String.leb a b), (String.leb b a); simpl; split; try done; lia. }
  split.
  - intros a b H. apply Hle.
    destruct (total String.le a b) as [Hab | Hba]; [|done].
    apply Hle in Hab. lia.
  - intros a b c. rewrite !Hle. apply transitivity.
Qed.

(** Claim C6: with [idAsc] the favorites come out in ascending order of
    id; with [idDesc], which is also what a missing or unknown sort key
    means, in descending order of id; with [title] in the ascending order
    of [localeCompare] on the titles. Sorting only reorders. Photos 3, 1,
    2 come out as 1, 2, 3 and as 3, 2, 1. *)
Theorem sort_orders localeCompare (photos : list Photo) (q : string) :
  Consistent localeCompare →
  StronglySorted (λ a b, (id a <= id b)%Z)
    (filtered localeCompare photos q (Some "idAsc"))
  ∧ (∀ sortParam, sortKeyOf sortParam = idDesc →
       StronglySorted (λ a b, (id b <= id a)%Z)
         (filtered localeCompare photos q sortParam))
  ∧ sortKeyOf None = idDesc ∧ sortKeyOf (Some "idDesc") = idDesc
  ∧ StronglySorted (λ a b, (localeCompare (title a) (title b) <= 0)%Z)
      (filtered localeCompare photos q (Some "title"))
  ∧ (∀ sortParam, Permutation (filtered localeCompare photos q sortParam)
                    (List.filter (matches (needle q)) photos))
  ∧ id <$> filtered localeCompare [mk 3 "c"; mk 1 "a"; mk 2 "b"] "" (Some "idAsc")
      = [1; 2; 3]%Z
  ∧ id <$> filtered localeCompare [mk 3 "c"; mk 1 "a"; mk 2 "b"] "" (Some "idDesc")
      = [3; 2; 1]%Z
  ∧ id <$> filtered localeCompare [mk 3 "c"; mk 1 "a"; mk 2 "b"] "" None
      = [3; 2; 1]%Z.
Proof.
  intros Hc.
  split; [|split; [|split; [|split; [|split; [|split; [|split; [|split]]]]]]];
    try done.
  - rewrite filtered_eq. simpl.
    eapply StronglySorted_mono; [|apply (sort_sorted _ _ Consistent_idAsc)].
    unfold before. simpl. intros; lia.
  - intros sortParam Hk. rewrite filtered_eq, Hk.
    eapply StronglySorted_mono; [|apply (sort_sorted _ _ Consistent_idDesc)].
    unfold before. simpl. intros; lia.
  - rewrite filtered_eq. simpl.
    apply (sort_sorted _ _ (Consistent_title _ Hc)).
  - intros sortParam. rewrite filtered_eq. apply sort_perm.
Qed.

Lemma sort_orders_witness :
  id <$> filtered byteCompare [mk 3 "c"; mk 1 "a"; mk 2 "b"] "" (Some "idAsc")
    = [1; 2; 3]%Z.
Proof.
  apply (sort_orders byteCompare [cat; dog] "c"). apply Consistent_byteCompare.
Defined.

(** *** What export serialises *)

(** Claim C10: export serialises the filtered and sorted favorites when
    there are some, and the whole store when the filter matches none; so
    a store that is not empty is exported whole, and not as an empty
    array, under a query that matches nothing. *)
Theorem export_falls_back localeCompare (photos : list Photo) (q : string)
    (sortParam : option string) :
  exportJSON localeCompare photos q sortParam =
    JArr (Photo_json <$>
            match filtered localeCompare photos q sortParam with
            | [] => photos
            | shown => shown
            end)
  ∧ ((∀ p, In p photos → ¬ containsCI (title p) (JS.trim q)) →
     exportJSON localeCompare photos q sortParam = JArr (Photo_json <$> photos))
  ∧ (filtered localeCompare [cat; dog] "zebra" sortParam = []
     ∧ all {[keyOfId 1 := Photo_json cat; keyOfId 2 := Photo_json dog]}
         = Photo_json <$> [cat; dog]
     ∧ exportJSON localeCompare [cat; dog] "zebra" sortParam
         = JArr (all {[keyOfId 1 := Photo_json cat; keyOfId 2 := Photo_json dog]})
     ∧ exportJSON localeCompare [cat; dog] "zebra" sortParam ≠ JArr []).
Proof.
  assert (H1 : exportJSON localeCompare photos q sortParam =
    JArr (Photo_json <$>
            match filtered localeCompare photos q sortParam with
            | [] => photos
            | shown => shown
            end)).
  { unfold exportJSON, payload.
    by destruct (filtered localeCompare photos q sortParam). }
  split; [exact H1 |]. split.
  - intros Hnone. rewrite H1.
    destruct (filtered localeCompare photos q sortParam) as [|p l] eqn:E; [done |].
    assert (Hp : In p (filtered localeCompare photos q sortParam))
      by (rewrite E; by left).
    apply filtered_In in Hp as [Hin Hc]. by destruct (Hnone p Hin).
  - split; [done |]. split; [by vm_compute |]. split; [by vm_compute | done].
Qed.

Lemma export_falls_back_witness :
  exportJSON byteCompare [cat; dog] "zebra" None = JArr (Photo_json <$> [cat; dog]).
Proof.
  apply (proj1 (proj2 (export_falls_back byteCompare [cat; dog] "zebra" None))).
  intros p Hp. rewrite <- matches_needle.
  destruct Hp as [<- | [<- | []]]; vm_compute; congruence.
Defined.

End FilterFacts.

(** ** Pagination *)

Module PaginationFacts.
Import Spec Samples Gallery.

Lemma retry_same (st : State) : retry st = st.
Proof.
  unfold retry, setPage, rerender. simpl.
  rewrite decide_True by done. by destruct st.
Qed.


Lemma onIntersect_error (st : State) (msg : string) :
  error st = Some msg → JS.nonEmpty msg = true → onIntersect st = st.
Proof.
  unfold onIntersect, noError. intros -> ->. simpl.
  by rewrite andb_false_r.
Qed.





Lemma settle_failed (n : nat) (st : State) (r : Request) :
  List.find (λ r, Nat.eqb (rid r) n) (requests st) = Some r →
  alive r = true →
  error (settle n None st) = Some "Could not load photos".
Proof. intros Hf Ha. unfold settle. by rewrite Hf, Ha. Qed.






(** Claim C8, where the code falls short: a failed fetch that is still
    awaited sets the error, and with the error set the sentinel does
    nothing; but Retry calls [setPage] with the identity, which leaves
    every state as it is, so after Retry the error is still set, no fetch
    is issued and the sentinel is still inert. *)
Theorem retry_is_inert (st : State) :
  retry st = st
  ∧ (∀ n r,
      List.find (λ r, Nat.eqb (rid r) n) (requests st) = Some r →
      alive r = true →
      error (settle n None st) = Some "Could not load photos" ∧
      onIntersect (settle n None st) = settle n None st)
  ∧ (error (run (mount "" "") bothFailed) = Some "Could not load photos"
     ∧ requests (run (mount "" "") bothFailed) = []
     ∧ run (mount "" "") (bothFailed ++ [Retry]) = run (mount "" "") bothFailed
     ∧ run (mount "" "") (bothFailed ++ [Retry; Intersect])
         = run (mount "" "") bothFailed).
Proof.
  split; [apply retry_same |]. split.
  - intros n r Hf Ha. pose proof (settle_failed n st r Hf Ha) as He.
    split; [done |]. by eapply onIntersect_error.
  - vm_compute. done.
Qed.

Lemma retry_is_inert_witness :
  error (settle 0 None (mount "" "")) = Some "Could not load photos".
Proof.
  eapply (proj1 (proj2 (retry_is_inert (mount "" "")))); vm_compute; reflexivity.
Defined.

End PaginationFacts.

(** ** The photo page *)

Module DetailFacts.
Import Samples JS PhotoDetail.

Lemma leZero_spec (q : Q) : leZero (Finite q) = true ↔ (q <= 0)%Q.
Proof.
  simpl. rewrite Z.leb_le. unfold Qle. simpl. lia.
Qed.

(** Claim C9: when the route parameter is not numeric, or is a number
    that is not positive, the page shows the error and calls no fetch;
    when it is a finite positive number the photo with that id is
    fetched. *)
Theorem invalid_id_no_fetch (routeId : option string) :
  (pidOf routeId = NaN ∨ leZero (pidOf routeId) = true →
     open routeId =
       {| photo := None; err := Some "Invalid photo id"; loaded := false;
          fetches := [] |})
  ∧ (∀ q, pidOf routeId = Finite q → (q <= 0)%Q → fetches (open routeId) = [])
  ∧ (∀ q, pidOf routeId = Finite q → (0 < q)%Q →
       open routeId =
         {| photo := None; err := None; loaded := false;
            fetches := [Finite q] |})
  ∧ (fetches (open (Some "abc")) = [] ∧ fetches (open None) = []
     ∧ fetches (open (Some "0")) = [] ∧ fetches (open (Some "-3")) = []
     ∧ fetches (open (Some "12")) = [ofZ 12]).
Proof.
  unfold open, loadPhoto, invalidId.
  split; [|split; [|split]].
  - intros [-> | H]; [done |]. by rewrite H, orb_true_r.
  - intros q Hq Hle. apply leZero_spec in Hle. rewrite Hq in *.
    by rewrite Hle.
  - intros q Hq Hpos.
    assert (leZero (Finite q) = false) as Hl.
    { apply not_true_is_false. rewrite leZero_spec. by apply Qlt_not_le. }
    by rewrite Hq, Hl.
  - vm_compute. done.
Qed.

Lemma invalid_id_no_fetch_witness :
  open (Some "abc") =
    {| photo := None; err := Some "Invalid photo id"; loaded := false;
       fetches := [] |}.
Proof.
  apply (proj1 (invalid_id_no_fetch (Some "abc"))). left. vm_compute. reflexivity.
Defined.

End DetailFacts.

(** ** The favorites store: stars, badge, removal *)

Module FavoritesFacts.
Import JSON Spec Samples StoreFacts.

Lemma keyOfId_inj (n m : Z) : keyOfId n = keyOfId m → n = m.
Proof. unfold keyOfId, inject_Z. by intros [= ->]. Qed.

(** In a store whose entries carry their key every value is an object. *)
Lemma keyed_truthy (s : FavStore) (k : Q) (v : value) :
  keyed s → s !! k = Some v → truthy (Some v) = true.
Proof.
  intros Hs Hk. pose proof (Hs k v Hk) as H. simpl in H.
  unfold keyOf in H. by destruct v.
Qed.

Lemma keyed_isFav (s : FavStore) (p : Photo) :
  keyed s → Gallery.isFav p s = bool_decide (is_Some (s !! keyOfId (id p))).
Proof.
  intros Hs. unfold Gallery.isFav.
  destruct (s !! keyOfId (id p)) as [v|] eqn:E.
  - rewrite (keyed_truthy s _ v Hs E). by rewrite bool_decide_eq_true_2.
  - by rewrite bool_decide_eq_false_2 by (by intros [? ?]).
Qed.

Lemma length_Object_keys (s : FavStore) : List.length (Object_keys s) = size s.
Proof.
  unfold Object_keys. rewrite length_fmap.
  rewrite (Permutation_length (SortFacts.sort_perm compareKeys (map_to_list s))).
  apply length_map_to_list.
Qed.

Lemma length_Object_values (s : FavStore) : List.length (Object_values s) = size s.
Proof.
  unfold Object_values. rewrite length_fmap.
  rewrite (Permutation_length (SortFacts.sort_perm compareKeys (map_to_list s))).
  apply length_map_to_list.
Qed.

Lemma Object_values_nil (s : FavStore) :
  Nat.eqb (List.length (Object_values s)) 0 = true → s = ∅.
Proof.
  rewrite Nat.eqb_eq, length_Object_values. apply map_size_empty_iff.
Qed.

(** Property X1: the star of a card toggles: after [toggleFav] the photo is
    a favorite exactly if it was not one before, what is stored for a photo
    that becomes a favorite is the photo, and no other entry of the store is
    touched. *)
Theorem toggleFav_flips (p : Photo) (s : FavStore) :
  Gallery.isFav p (Gallery.toggleFav p s) = negb (Gallery.isFav p s)
  ∧ (Gallery.isFav p s = false →
       Gallery.toggleFav p s !! keyOfId (id p) = Some (Photo_json p))
  ∧ (Gallery.isFav p s = true → Gallery.toggleFav p s !! keyOfId (id p) = None)
  ∧ (∀ k, k ≠ keyOfId (id p) → Gallery.toggleFav p s !! k = s !! k)
  ∧ (∀ q, id q ≠ id p → Gallery.isFav q (Gallery.toggleFav p s) = Gallery.isFav q s).
Proof.
  assert (Hne : ∀ k, k ≠ keyOfId (id p) → Gallery.toggleFav p s !! k = s !! k).
  { intros k Hk. unfold Gallery.toggleFav, setFavs. case_match.
    - by rewrite lookup_delete_ne.
    - by rewrite lookup_insert_ne. }
  unfold Gallery.isFav. repeat split.
  - unfold Gallery.toggleFav, setFavs.
    destruct (truthy (s !! keyOfId (id p))) eqn:E.
    + by rewrite lookup_delete_eq.
    + by rewrite lookup_insert_eq.
  - intros E. unfold Gallery.toggleFav, setFavs. rewrite E.
    by rewrite lookup_insert_eq.
  - intros E. unfold Gallery.toggleFav, setFavs. rewrite E.
    by rewrite lookup_delete_eq.
  - done.
  - intros q Hq. rewrite Hne; [done |]. intros H. by apply keyOfId_inj in H.
Qed.

Lemma toggleFav_flips_witness :
  Gallery.toggleFav dog {[keyOfId 1 := Photo_json cat]} !! keyOfId (id dog)
  = Some (Photo_json dog).
Proof.
  apply (proj1 (proj2 (toggleFav_flips dog {[keyOfId 1 := Photo_json cat]}))).
  vm_compute. reflexivity.
Defined.

(** Property X2: the number on the Favorites badge of the Gallery is the
    number of favorites the Favorites page lists, and in a favorites store a
    click on a star changes it by exactly one: down for a favorite, up for a
    photo that is not one. *)
Theorem totalFavs_counts (p : Photo) (s : FavStore) :
  keyed s →
  Gallery.totalFavs s = List.length (Favorites.all s)
  ∧ Gallery.totalFavs (Gallery.toggleFav p s) =
      (if Gallery.isFav p s then Nat.pred (Gallery.totalFavs s)
       else S (Gallery.totalFavs s)).
Proof.
  intros Hs. unfold Gallery.totalFavs, Favorites.all.
  rewrite !length_Object_keys, length_Object_values. split; [done |].
  rewrite keyed_isFav by done.
  unfold Gallery.toggleFav, setFavs.
  destruct (s !! keyOfId (id p)) as [v|] eqn:E.
  - rewrite (keyed_truthy s _ v Hs E).
    rewrite bool_decide_eq_true_2 by done.
    by rewrite map_size_delete_Some by done.
  - simpl. by rewrite map_size_insert_None.
Qed.

Lemma totalFavs_counts_witness :
  Gallery.totalFavs {[keyOfId 1 := Photo_json cat]} =
    List.length (Favorites.all {[keyOfId 1 := Photo_json cat]})
  ∧ Gallery.totalFavs (Gallery.toggleFav dog {[keyOfId 1 := Photo_json cat]}) =
      (if Gallery.isFav dog {[keyOfId 1 := Photo_json cat]}
       then Nat.pred (Gallery.totalFavs {[keyOfId 1 := Photo_json cat]})
       else S (Gallery.totalFavs {[keyOfId 1 := Photo_json cat]})).
Proof.
  apply (totalFavs_counts dog {[keyOfId 1 := Photo_json cat]}).
  apply (bool_decide_unpack _). vm_compute. reflexivity.
Defined.

(** Property X3: [removeOne] takes the photo out of the store and touches
    nothing else: its key is gone afterwards, every other entry is as it
    was, and for a photo that has no entry the store does not change. *)
Theorem removeOne_only_its_key (p : Photo) (s : FavStore) :
  Favorites.removeOne p s !! keyOfId (id p) = None
  ∧ (∀ k, k ≠ keyOfId (id p) → Favorites.removeOne p s !! k = s !! k)
  ∧ (s !! keyOfId (id p) = None → Favorites.removeOne p s = s)
  ∧ Favorites.removeOne p (Favorites.removeOne p s) = Favorites.removeOne p s.
Proof.
  unfold Favorites.removeOne, setFavs. repeat split.
  - by rewrite lookup_delete_eq.
  - intros k Hk. by rewrite lookup_delete_ne.
  - apply delete_id.
  - apply delete_id. by rewrite lookup_delete_eq.
Qed.

Lemma removeOne_only_its_key_witness :
  Favorites.removeOne dog {[keyOfId 1 := Photo_json cat]}
  = {[keyOfId 1 := Photo_json cat]}.
Proof.
  apply (proj1 (proj2 (proj2
           (removeOne_only_its_key dog {[keyOfId 1 := Photo_json cat]})))).
  vm_compute. reflexivity.
Defined.

(** Property X4: the star on the Favorites page against the star on the
    Gallery: for a favorite [removeOne] does what [toggleFav] does, and
    removing a photo that [toggleFav] has just added gives the store there
    was before. *)
Theorem removeOne_undoes_toggleFav (p : Photo) (s : FavStore) :
  (Gallery.isFav p s = true → Favorites.removeOne p s = Gallery.toggleFav p s)
  ∧ (s !! keyOfId (id p) = None →
       Favorites.removeOne p (Gallery.toggleFav p s) = s).
Proof.
  unfold Gallery.isFav, Favorites.removeOne, Gallery.toggleFav, setFavs. split.
  - by intros ->.
  - intros E. rewrite E. simpl. by rewrite delete_insert_eq, delete_id.
Qed.

Lemma removeOne_undoes_toggleFav_witness :
  Favorites.removeOne dog (Gallery.toggleFav dog {[keyOfId 1 := Photo_json cat]})
  = {[keyOfId 1 := Photo_json cat]}.
Proof.
  apply (proj2 (removeOne_undoes_toggleFav dog {[keyOfId 1 := Photo_json cat]})).
  vm_compute. reflexivity.
Defined.

(** Property X5: [clearAll] empties the store when the question is answered
    with yes and leaves it as it is when it is answered with no; afterwards
    the badge shows zero or what it showed. *)
Theorem clearAll_confirmed (s : FavStore) :
  Favorites.clearAll true s = ∅
  ∧ Favorites.clearAll false s = s
  ∧ Gallery.totalFavs (Favorites.clearAll true s) = 0%nat.
Proof.
  assert (H : Favorites.clearAll true s = ∅).
  { unfold Favorites.clearAll, Favorites.all.
    destruct (Nat.eqb (List.length (Object_values s)) 0) eqn:E; [|done].
    by apply Object_values_nil. }
  split; [done |]. split.
  - unfold Favorites.clearAll. by case_match.
  - rewrite H. unfold Gallery.totalFavs. by rewrite length_Object_keys.
Qed.

End FavoritesFacts.

(** ** Import again, and restoring from an exported file *)

Module RestoreFacts.
Import JSON Spec Samples StoreFacts ImportFacts Favorites.

Lemma reachable_keyed_witness :
  keyed (removeOne dog (Gallery.toggleFav cat ∅)).
Proof.
  apply (reachable_keyed (removeOne dog (Gallery.toggleFav cat ∅))).
  apply reach_remove, reach_toggle, reach_empty.
Defined.

Lemma mergeItems_idem (arr : list value) (s : FavStore) :
  mergeItems arr (mergeItems arr s) = mergeItems arr s.
Proof.
  apply map_eq. intros k. rewrite !mergeItems_lookup.
  by destruct (lastKept k arr).
Qed.

(** Property X7: importing a file a second time changes nothing: the store
    after the second import, and the message alerted, are those after the
    first, whatever the file holds and whatever the store was. *)
Theorem import_twice (file : option string) (s : FavStore) :
  onImportFile file (onImportFile file s).1 = onImportFile file s.
Proof.
  destruct file as [text|]; simpl; [|done]. unfold importText.
  destruct (Parser.parse text) as [[]|]; simpl; try done.
  by rewrite mergeItems_idem.
Qed.

Lemma accepts_Photo (p : Photo) :
  accepts (Photo_json p) =
    JS.nonEmpty (url p) && JS.nonEmpty (thumbnailUrl p) && JS.nonEmpty (title p).
Proof. done. Qed.

Lemma payload_blank_In localeCompare (photos : list Photo) (q : string)
    (sortParam : option string) (p : Photo) :
  JS.trim q = "" →
  In p (payload (filtered localeCompare photos q sortParam) photos) ↔ In p photos.
Proof.
  intros Hq. unfold payload, filtered, needle. rewrite Hq. simpl.
  case_match; [done |]. apply SortFacts.sort_In.
Qed.

(** Property X8: export with a blank search box, then import into an empty
    store (a new browser, or after Clear all): what comes back is every
    favorite whose title, url and thumbnailUrl are not empty, under its id,
    and nothing else; a store of photos with all three filled in comes back
    whole. *)
Theorem export_then_restore localeCompare (s : FavStore) (photos : list Photo)
    (q : string) (sortParam : option string) :
  keyed s → all s = Photo_json <$> photos → JS.trim q = "" →
  ∃ text, exportText localeCompare photos q sortParam = Some text
    ∧ onImportFile (Some text) ∅ = (filter (λ kv, accepts kv.2 = true) s, None)
    ∧ (Forall (λ p, JS.nonEmpty (url p) && JS.nonEmpty (thumbnailUrl p)
                    && JS.nonEmpty (title p) = true) photos →
       onImportFile (Some text) ∅ = (s, None)).
Proof.
  intros Hs Hall Hq.
  unfold exportText, exportJSON. rewrite PrinterFacts.stringify_photos.
  eexists. split; [reflexivity |].
  simpl. unfold importText. rewrite PrinterFacts.parse_stringify_photos.
  set (arr := Photo_json <$> payload (filtered localeCompare photos q sortParam) photos).
  assert (Hin : ∀ v, In v arr ↔ ∃ k, s !! k = Some v).
  { intros v. rewrite <- elem_of_Object_values. fold (all s). rewrite Hall.
    unfold arr. rewrite !in_map_iff.
    split; intros (p & Hp & H); exists p; (split; [done |]);
      by apply (payload_blank_In localeCompare photos q sortParam p Hq). }
  assert (Hm : mergeItems arr ∅ = filter (λ kv, accepts kv.2 = true) s).
  { apply map_eq. intros k. rewrite mergeItems_lookup.
    destruct (lastKept k arr) as [v|] eqn:E.
    - apply lastKept_Some in E as (Hv & Ha & Hk).
      apply Hin in Hv as [j Hj].
      pose proof (Hs j v Hj) as Hj'. simpl in Hj'.
      assert (j = k) as -> by congruence.
      symmetry. by apply map_lookup_filter_Some.
    - rewrite lookup_empty. symmetry. apply map_lookup_filter_None. right.
      intros v Hv Ha. simpl in Ha.
      destruct (lastKept_is_Some k arr v) as [w Hw]; [| done | | congruence].
      + apply Hin. by exists k.
      + apply (Hs k v Hv). }
  rewrite Hm. split; [done |].
  intros Hok. f_equal. apply map_filter_id. intros k v Hv. simpl.
  assert (In v (all s)) as Hv' by (apply elem_of_Object_values; by exists k).
  rewrite Hall in Hv'. apply in_map_iff in Hv' as (p & <- & Hp).
  rewrite accepts_Photo. rewrite Forall_forall in Hok. apply Hok.
  by apply list_elem_of_In.
Qed.

Lemma export_then_restore_witness :
  ∃ text, exportText byteCompare [cat; dog] " " None = Some text
    ∧ onImportFile (Some text) ∅ =
        (filter (λ kv, accepts kv.2 = true)
           ({[keyOfId 1 := Photo_json cat; keyOfId 2 := Photo_json dog]} : FavStore),
         None)
    ∧ (Forall (λ p, JS.nonEmpty (url p) && JS.nonEmpty (thumbnailUrl p)
                    && JS.nonEmpty (title p) = true) [cat; dog] →
       onImportFile (Some text) ∅ =
         ({[keyOfId 1 := Photo_json cat; keyOfId 2 := Photo_json dog]}, None)).
Proof.
  apply (export_then_restore byteCompare
           {[keyOfId 1 := Photo_json cat; keyOfId 2 := Photo_json dog]}
           [cat; dog] " " None).
  - apply (bool_decide_unpack _). vm_compute. reflexivity.
  - vm_compute. reflexivity.
  - vm_compute. reflexivity.
Defined.

End RestoreFacts.

(** ** The state kept in the URL *)

Module UrlFacts.
Import URLSearchParams.

Lemma get_delete_eq (name : string) (params : t) :
  get name (delete name params) = None.
Proof.
  unfold get, delete. induction params as [|kv r IH]; simpl; [done |].
  destruct (String.eqb kv.1 name) eqn:E; simpl; [done |]. by rewrite E.
Qed.

Lemma get_delete_ne (name k : string) (params : t) :
  k ≠ name → get k (delete name params) = get k params.
Proof.
  intros Hk. unfold get, delete. induction params as [|kv r IH]; simpl; [done |].
  destruct (String.eqb kv.1 name) eqn:E; simpl.
  - apply String.eqb_eq in E.
    destruct (String.eqb kv.1 k) eqn:E'; [|done].
    apply String.eqb_eq in E'. congruence.
  - destruct (String.eqb kv.1 k); [done | apply IH].
Qed.

Lemma get_set_eq (name v : string) (params : t) :
  get name (set name v params) = Some v.
Proof.
  unfold get. induction params as [|kv r IH]; simpl.
  - by rewrite String.eqb_refl.
  - destruct (String.eqb kv.1 name) eqn:E; simpl.
    + by rewrite String.eqb_refl.
    + by rewrite E.
Qed.

Lemma get_set_ne (name k v : string) (params : t) :
  k ≠ name → get k (set name v params) = get k params.
Proof.
  intros Hk. assert (String.eqb name k = false) as Hn by (apply String.eqb_neq; congruence).
  induction params as [|kv r IH]; simpl.
  - unfold get. simpl. by rewrite Hn.
  - destruct (String.eqb kv.1 name) eqn:E.
    + apply String.eqb_eq in E.
      pose proof (get_delete_ne name k r Hk) as Hd.
      unfold get in *. simpl. rewrite Hn, E, Hn. exact Hd.
    + unfold get in *. simpl. destruct (String.eqb kv.1 k); [done | apply IH].
Qed.

(** Property X9: the search box and the sort menu of the Favorites page read
    back what they wrote to the URL: after [onChangeQ v] the query is [v]
    (an empty one takes the parameter away), after [onChangeSort k] the sort
    key is [k], and neither handler disturbs the other's parameter. *)
Theorem favorites_url_reads_back (v : string) (k : Favorites.SortKey) (params : t) :
  Favorites.qParam (Favorites.onChangeQ v params) = v
  ∧ Favorites.sortKeyOf (Favorites.sortParam (Favorites.onChangeSort k params)) = k
  ∧ Favorites.sortParam (Favorites.onChangeQ v params) = Favorites.sortParam params
  ∧ Favorites.qParam (Favorites.onChangeSort k params) = Favorites.qParam params
  ∧ get "q" (Favorites.onChangeQ "" params) = None.
Proof.
  unfold Favorites.qParam, Favorites.sortParam, Favorites.onChangeQ,
    Favorites.onChangeSort, Favorites.setParam.
  repeat split.
  - destruct v as [|c v]; simpl.
    + by rewrite get_delete_eq.
    + by rewrite get_set_eq.
  - destruct k; simpl; by rewrite get_set_eq.
  - destruct v as [|c v]; simpl.
    + by apply get_delete_ne.
    + by apply get_set_ne.
  - destruct k; simpl; by rewrite get_set_ne.
  - simpl. apply get_delete_eq.
Qed.

(** Property X10: the filters of the Gallery in the URL: the search box and
    the album menu read back what they wrote and leave each other's
    parameter alone; [clearFilters] empties both, which takes the Clear
    button away, and touches no other parameter. *)
Theorem gallery_url_reads_back (v : string) (params : t) :
  Gallery.Url.qParam (Gallery.Url.onChangeQ v params) = v
  ∧ Gallery.Url.albumParam (Gallery.Url.onChangeAlbum v params) = v
  ∧ Gallery.Url.albumParam (Gallery.Url.onChangeQ v params) = Gallery.Url.albumParam params
  ∧ Gallery.Url.qParam (Gallery.Url.onChangeAlbum v params) = Gallery.Url.qParam params
  ∧ Gallery.Url.qParam (Gallery.Url.clearFilters params) = ""
  ∧ Gallery.Url.albumParam (Gallery.Url.clearFilters params) = ""
  ∧ Gallery.Url.showClear (Gallery.Url.clearFilters params) = false
  ∧ (∀ k, k ≠ "q" → k ≠ "album" →
       get k (Gallery.Url.clearFilters params) = get k params).
Proof.
  assert (Hq : Gallery.Url.qParam (Gallery.Url.clearFilters params) = "").
  { unfold Gallery.Url.qParam, Gallery.Url.clearFilters.
    by rewrite get_delete_ne, get_delete_eq. }
  assert (Ha : Gallery.Url.albumParam (Gallery.Url.clearFilters params) = "").
  { unfold Gallery.Url.albumParam, Gallery.Url.clearFilters.
    by rewrite get_delete_eq. }
  repeat split; try done.
  - unfold Gallery.Url.qParam, Gallery.Url.onChangeQ.
    destruct v; simpl; by rewrite ?get_delete_eq, ?get_set_eq.
  - unfold Gallery.Url.albumParam, Gallery.Url.onChangeAlbum.
    destruct v; simpl; by rewrite ?get_delete_eq, ?get_set_eq.
  - unfold Gallery.Url.albumParam, Gallery.Url.onChangeQ.
    destruct v; simpl; by rewrite ?get_delete_ne, ?get_set_ne.
  - unfold Gallery.Url.qParam, Gallery.Url.onChangeAlbum.
    destruct v; simpl; by rewrite ?get_delete_ne, ?get_set_ne.
  - unfold Gallery.Url.showClear. by rewrite Hq, Ha.
  - intros k H1 H2. unfold Gallery.Url.clearFilters.
    by rewrite !get_delete_ne.
Qed.

End UrlFacts.

(** ** What the pages show *)

Module ViewFacts.
Import JSON Spec Samples StringFacts SortFacts StoreFacts FilterFacts Favorites.



Section Stable.
Context {A : Type} (compareFn : A → A → Z).

Lemma insertSorted_filter (f : A → bool) (x : A) (l : list A) :
  (∀ y, f x = true → f y = true → (compareFn x y <= 0)%Z) →
  List.filter f (JS.insertSorted compareFn x l) = List.filter f (x :: l).
Proof.
  intros Hf. induction l as [|y l IH]; [done |].
  cbn [JS.insertSorted]. destruct (compareFn x y <=? 0)%Z eqn:E; [done |].
  apply Z.leb_gt in E. cbn [List.filter] in *. rewrite IH.
  destruct (f x) eqn:Fx; [|done].
  destruct (f y) eqn:Fy; [|done].
  specialize (Hf y eq_refl Fy). lia.
Qed.

Lemma sort_filter (f : A → bool) (l : list A) :
  (∀ x y, f x = true → f y = true → (compareFn x y <= 0)%Z) →
  List.filter f (JS.sort compareFn l) = List.filter f l.
Proof.
  intros Hf. induction l as [|x l IH]; [done |].
  cbn [JS.sort]. rewrite insertSorted_filter by (intros; by apply Hf).
  cbn [List.filter]. by rewrite IH.
Qed.
End Stable.

(** Property X11: the sort of the Favorites page is stable: under each of
    the three sort keys, the favorites that tie with a given one (same id,
    or titles the collation does not tell apart) are listed in the order
    they have in the store. *)
Theorem sort_keeps_ties_in_order localeCompare (photos : list Photo) (q : string)
    (sortParam : option string) (a : Photo) :
  Consistent localeCompare →
  List.filter (tied (compareFn localeCompare (sortKeyOf sortParam)) a)
    (filtered localeCompare photos q sortParam)
  = List.filter (tied (compareFn localeCompare (sortKeyOf sortParam)) a)
      (List.filter (matches (needle q)) photos).
Proof.
  intros Hc. rewrite filtered_eq. apply sort_filter.
  assert (Consistent (compareFn localeCompare (sortKeyOf sortParam))) as [_ Ht].
  { destruct (sortKeyOf sortParam).
    - split; simpl; intros; lia.
    - split; simpl; intros; lia.
    - by apply Consistent_title. }
  unfold tied. intros x y Hx Hy.
  apply andb_true_iff in Hx as [_ Hx]. apply andb_true_iff in Hy as [Hy _].
  apply Z.leb_le in Hx, Hy. by apply (Ht x a y).
Qed.

Lemma sort_keeps_ties_in_order_witness :
  List.filter (tied (compareFn byteCompare (sortKeyOf (Some "title"))) (mk 3 "Cat"))
    (filtered byteCompare [mk 3 "Cat"; dog; cat] "" (Some "title"))
  = List.filter (tied (compareFn byteCompare (sortKeyOf (Some "title"))) (mk 3 "Cat"))
      (List.filter (matches (needle "")) [mk 3 "Cat"; dog; cat]).
Proof.
  apply (sort_keeps_ties_in_order byteCompare [mk 3 "Cat"; dog; cat] ""
           (Some "title") (mk 3 "Cat")).
  apply Consistent_byteCompare.
Defined.








End ViewFacts.

(** ** Lists filtered twice *)

Module ListFacts.

Section Filter.
Context {A : Type}.

Lemma Forall_filter (P : A → Prop) (g : A → bool) (l : list A) :
  Forall P l → Forall P (List.filter g l).
Proof.
  rewrite !Forall_forall. intros H x Hx%list_elem_of_In.
  apply filter_In in Hx as [Hx _]. by apply H, list_elem_of_In.
Qed.

Lemma filter_filter_length (f g : A → bool) (l : list A) :
  (List.length (List.filter f (List.filter g l)) <= List.length (List.filter f l))%nat.
Proof.
  induction l as [|x l IH]; [done |].
  cbn [List.filter]. destruct (g x); cbn [List.filter]; destruct (f x); simpl; lia.
Qed.

Lemma Forall_filter_filter (P : A → Prop) (f g : A → bool) (l : list A) :
  Forall P (List.filter f l) → Forall P (List.filter f (List.filter g l)).
Proof.
  rewrite !Forall_forall. intros H x Hx%list_elem_of_In.
  apply H, list_elem_of_In.
  apply filter_In in Hx as [Hx Ha]. apply filter_In in Hx as [Hx _].
  by apply filter_In.
Qed.

Lemma NoDup_fmap_filter {B} (h : A → B) (g : A → bool) (l : list A) :
  NoDup (h <$> l) → NoDup (h <$> List.filter g l).
Proof.
  induction l as [|x l IH]; [done |].
  rewrite fmap_cons. intros [Hx Hnd]%NoDup_cons.
  cbn [List.filter]. destruct (g x); [| by apply IH].
  rewrite fmap_cons. apply NoDup_cons. split; [| by apply IH].
  intros Hy. apply Hx. apply list_elem_of_fmap in Hy as (y & -> & Hin).
  apply list_elem_of_fmap. exists y. split; [done |].
  apply list_elem_of_In. apply list_elem_of_In in Hin.
  by apply filter_In in Hin as [? _].
Qed.

Lemma at_most_one (l : list A) (a b : A) :
  (List.length l <= 1)%nat → In a l → In b l → a = b.
Proof.
  destruct l as [|x [|y l]]; simpl; [done | | lia].
  intros _ [<- | []] [<- | []]. done.
Qed.
End Filter.

End ListFacts.

(** ** The pagination controller over whole runs *)

Module ControllerFacts.
Import Gallery Spec Samples PaginationFacts.



Lemma aliveOf_cleanup (e e' : Effect) (st : State) :
  aliveOf e' (requests (cleanup e st)) =
    if decide (e' = e) then [] else aliveOf e' (requests st).
Proof.
  unfold cleanup, aliveOf. cbn [requests].
  induction (requests st) as [|r rs IH]; [by case_decide |].
  cbn [List.map List.filter]. rewrite IH. clear IH.
  destruct (decide (source r = e)) as [Hs | Hs]; cbn [alive source].
  - simpl. destruct (decide (e' = e)) as [-> | He]; [done |].
    rewrite bool_decide_eq_false_2 by congruence. by rewrite andb_false_r.
  - destruct (decide (e' = e)) as [-> | He]; [|done].
    rewrite bool_decide_eq_false_2 by congruence. by rewrite andb_false_r.
Qed.

Lemma aliveOf_snoc (e : Effect) (rs : list Request) (r : Request) :
  aliveOf e (rs ++ [r]) =
    aliveOf e rs ++ (if alive r && bool_decide (source r = e) then [r] else []).
Proof. unfold aliveOf. by rewrite List.filter_app. Qed.







Lemma aliveOf_resetEffect (st : State) :
  aliveOf Reset (requests (resetEffect st)) =
    [{| rid := issued st; rpage := 1; source := Reset; alive := true |}].
Proof.
  unfold resetEffect. cbn [requests]. by rewrite aliveOf_snoc, aliveOf_cleanup.
Qed.






(** Property X17: the first render fetches page 1 twice, once from each
    effect. When the fetch of the page appender completes first its page is
    replaced by that of the reset effect; when the fetch of the reset effect
    completes first the page appender's photos are appended to it, and the
    first page is listed twice. *)
Theorem first_page_fetched_twice (q album : string) (data data' : list Photo) :
  rpage <$> requests (mount q album) = [1%Z; 1%Z]
  ∧ source <$> requests (mount q album) = [Appender; Reset]
  ∧ items (run (mount q album) [Fetched 0 data; Fetched 1 data']) = data'
  ∧ items (run (mount q album) [Fetched 1 data'; Fetched 0 data]) = data' ++ data
  ∧ requests (run (mount q album) [Fetched 1 data'; Fetched 0 data]) = [].
Proof.
  unfold mount, pageEffect, resetEffect, run. cbn [fold_left step].
  unfold settle. by cbn.
Qed.

(** Property X18: a change of the query or of the album starts over: the
    page is 1, the list is empty, more is expected, the error is gone,
    loading shows, the only fetch of the reset effect still awaited is a new
    one for page 1, and a fetch of the page appender is awaited only for
    page 1. *)
Theorem filters_start_over (q album : string) (st : State) :
  ¬ (q = qDebounced st ∧ album = albumParam st) →
  page (changeFilters q album st) = 1%Z
  ∧ items (changeFilters q album st) = []
  ∧ hasMore (changeFilters q album st) = true
  ∧ loading (changeFilters q album st) = true
  ∧ error (changeFilters q album st) = None
  ∧ qDebounced (changeFilters q album st) = q
  ∧ albumParam (changeFilters q album st) = album
  ∧ aliveOf Reset (requests (changeFilters q album st)) =
      [{| rid := issued st; rpage := 1; source := Reset; alive := true |}]
  ∧ (issued st < issued (changeFilters q album st))%nat.
Proof.
  intros H. unfold changeFilters. rewrite decide_False by done.
  set (st0 := {| page := page st; items := items st; hasMore := hasMore st;
                 loading := loading st; initialLoaded := initialLoaded st;
                 error := error st; qDebounced := q; albumParam := album;
                 requests := requests st; issued := issued st |}).
  pose proof (aliveOf_resetEffect st0) as Hr.
  unfold rerender. case_decide as Hp.
  - rewrite Hr. unfold resetEffect.
    cbn [page items hasMore loading error qDebounced albumParam issued cleanup st0].
    split_and!; try done. lia.
  - unfold pageEffect.
    cbn [page items hasMore loading error qDebounced albumParam issued requests].
    rewrite aliveOf_snoc, (aliveOf_cleanup Appender Reset).
    rewrite decide_False by done. rewrite Hr.
    unfold resetEffect.
    cbn [page items hasMore loading error qDebounced albumParam issued cleanup st0
         alive source].
    split_and!; try done. lia.
Qed.

Lemma filters_start_over_witness :
  page (changeFilters "cat" "" (run (mount "" "") threePages)) = 1%Z
  ∧ items (changeFilters "cat" "" (run (mount "" "") threePages)) = []
  ∧ hasMore (changeFilters "cat" "" (run (mount "" "") threePages)) = true
  ∧ loading (changeFilters "cat" "" (run (mount "" "") threePages)) = true
  ∧ error (changeFilters "cat" "" (run (mount "" "") threePages)) = None
  ∧ qDebounced (changeFilters "cat" "" (run (mount "" "") threePages)) = "cat"
  ∧ albumParam (changeFilters "cat" "" (run (mount "" "") threePages)) = ""
  ∧ aliveOf Reset (requests (changeFilters "cat" "" (run (mount "" "") threePages))) =
      [{| rid := issued (run (mount "" "") threePages); rpage := 1;
          source := Reset; alive := true |}]
  ∧ (issued (run (mount "" "") threePages)
     < issued (changeFilters "cat" "" (run (mount "" "") threePages)))%nat.
Proof.
  apply (filters_start_over "cat" "" (run (mount "" "") threePages)).
  vm_compute. intros [H _]. discriminate H.
Defined.





End ControllerFacts.

(** ** The photo page over whole runs *)

Module DetailPageFacts.
Import PhotoDetail Spec Samples.

Lemma liveFetches_stale (fs : list Fetch) : liveFetches (stale fs) = [].
Proof.
  unfold liveFetches, stale. induction fs as [|f fs IH]; [done |].
  cbn [List.map List.filter live]. exact IH.
Qed.

Lemma fmap_fid_stale (fs : list Fetch) : fid <$> stale fs = fid <$> fs.
Proof.
  unfold stale. induction fs as [|f fs IH]; [done |].
  cbn [List.map]. by rewrite !fmap_cons, IH.
Qed.

Lemma Forall_fid_stale (n : nat) (fs : list Fetch) :
  Forall (λ f, fid f < n)%nat fs → Forall (λ f, fid f < n)%nat (stale fs).
Proof.
  unfold stale. induction 1; cbn [List.map]; by constructor.
Qed.

Lemma In_stale (f : Fetch) (fs : list Fetch) : In f (stale fs) → live f = false.
Proof. unfold stale. rewrite in_map_iff. by intros (g & <- & _). Qed.

Lemma inStep_loadEffect (p : JS.number) (pg : Page) :
  Forall (λ f, fid f < started pg)%nat (inFlight pg) →
  NoDup (fid <$> inFlight pg) →
  inStep (loadEffect p pg).
Proof.
  intros Hlt Hnd. unfold inStep, loadEffect. cbn [inFlight started pid view].
  destruct (invalidId p) eqn:E.
  - rewrite liveFetches_stale. split_and!; try done.
    + by apply Forall_fid_stale.
    + by rewrite fmap_fid_stale.
    + simpl. lia.
  - assert (liveFetches (stale (inFlight pg) ++
                         [{| fid := started pg; fpid := p; live := true |}])
            = [{| fid := started pg; fpid := p; live := true |}]) as ->.
    { unfold liveFetches. rewrite List.filter_app.
      fold (liveFetches (stale (inFlight pg))). by rewrite liveFetches_stale. }
    split_and!.
    + apply Forall_app. split.
      * apply Forall_fid_stale. eapply Forall_impl; [exact Hlt |]. simpl. lia.
      * constructor; [simpl; lia | constructor].
    + rewrite fmap_app, fmap_fid_stale. apply NoDup_app. split; [done |]. split.
      * intros x Hx Hx'.
        change (fid <$> [{| fid := started pg; fpid := p; live := true |}])
          with [started pg] in Hx'.
        apply list_elem_of_singleton in Hx' as ->.
        apply list_elem_of_fmap in Hx as (f & Hf & Hin).
        rewrite Forall_forall in Hlt. specialize (Hlt f Hin). simpl in Hlt. lia.
      * apply NoDup_singleton.
    + simpl. lia.
    + by repeat constructor.
    + intros _. unfold loadPhoto. by rewrite E.
Qed.

Lemma inStep_complete (n : nat) (result : option Photo) (pg : Page) :
  inStep pg → inStep (complete n result pg).
Proof.
  intros (H1 & H2 & H3 & H4 & H5). unfold complete.
  destruct (List.find _ (inFlight pg)) as [f|] eqn:Ef; [|done].
  apply find_some in Ef as [Hin Hn].
  assert (Hlen : (List.length (liveFetches
                    (List.filter (λ f, negb (Nat.eqb (fid f) n)) (inFlight pg)))
                  <= List.length (liveFetches (inFlight pg)))%nat)
    by apply ListFacts.filter_filter_length.
  unfold inStep. cbn [inFlight started pid view]. split_and!.
  - by apply ListFacts.Forall_filter.
  - by apply ListFacts.NoDup_fmap_filter.
  - lia.
  - by apply ListFacts.Forall_filter_filter.
  - intros Hne. destruct (live f) eqn:L.
    + destruct Hne.
      destruct (liveFetches (List.filter _ (inFlight pg))) as [|x l] eqn:Ex; [done |].
      assert (In x (liveFetches (List.filter (λ f, negb (Nat.eqb (fid f) n))
                                   (inFlight pg)))) as Hx
        by (rewrite Ex; by left).
      unfold liveFetches in Hx.
      apply filter_In in Hx as [Hx Hl]. apply filter_In in Hx as [Hx Hg].
      assert (x = f) as ->.
      { apply (ListFacts.at_most_one (liveFetches (inFlight pg))); [done | |];
          unfold liveFetches; by apply filter_In. }
      by rewrite Hn in Hg.
    + apply H5. intros E. rewrite E in Hlen.
      destruct (liveFetches (List.filter _ (inFlight pg))) as [|y l];
        [by destruct Hne | simpl in Hlen; lia].
Qed.

Lemma inStep_step (pg : Page) (ev : Event) : inStep pg → inStep (step pg ev).
Proof.
  intros H. destruct ev; simpl.
  - unfold navigateTo. case_match; [done |].
    destruct H as (H1 & H2 & _). by apply inStep_loadEffect.
  - by apply inStep_complete.
  - by apply inStep_complete.
  - unfold imageLoaded. destruct (photo (view pg)) as [p|] eqn:E; [|done].
    destruct H as (H1 & H2 & H3 & H4 & H5). unfold inStep.
    cbn [inFlight started pid view photo err].
    split_and!; try done. intros Hne. destruct (H5 Hne) as [Hp _]. congruence.
Qed.

Lemma inStep_run (routeId : option string) (evs : list Event) :
  inStep (run (mount routeId) evs).
Proof.
  unfold run.
  assert (inStep (mount routeId)) as H.
  { unfold mount. apply inStep_loadEffect; [constructor | ]. simpl. constructor. }
  revert H. generalize (mount routeId).
  induction evs as [|ev evs IH]; intros pg H; [done |].
  simpl. by apply IH, inStep_step.
Qed.

(** Property X20: whatever happens on the photo page (the route changing to
    valid or invalid ids, fetches completing or failing in any order, the
    image loading), at most one fetch is awaited, it is the fetch for the
    photo of the current route, and while it is awaited the page shows
    neither a photo nor an error. *)
Theorem detail_page_stays_in_step (routeId : option string) (evs : list Event) :
  inStep (run (mount routeId) evs)
  ∧ (liveFetches (inFlight (run (mount routeId) evs)) ≠ [] →
     loading (view (run (mount routeId) evs)) = true).
Proof.
  pose proof (inStep_run routeId evs) as H. split; [done |].
  destruct H as (_ & _ & _ & _ & H). intros Hne. destruct (H Hne) as [Hp He].
  unfold loading, noErr. by rewrite Hp, He.
Qed.

Lemma detail_page_stays_in_step_witness :
  loading (view (run (mount (Some "1")) [Navigate (Some "2")])) = true.
Proof.
  apply (proj2 (detail_page_stays_in_step (Some "1") [Navigate (Some "2")])).
  vm_compute. intros H. discriminate H.
Defined.

(** Property X21: a response that comes late is not shown: once the route
    has changed to another photo id, the completion of any fetch made before
    the change (with a photo or with a failure) leaves the page as it is. *)
Theorem late_response_ignored (pg : Page) (routeId : option string) (n : nat)
    (result : option Photo) :
  JS.Object_is (pidOf routeId) (pid pg) = false →
  (n < started pg)%nat →
  view (complete n result (navigateTo routeId pg)) = view (navigateTo routeId pg).
Proof.
  intros Hpid Hn. unfold navigateTo. rewrite Hpid. unfold complete.
  destruct (List.find _ (inFlight (loadEffect (pidOf routeId) pg))) as [f|] eqn:Ef;
    [|done].
  apply find_some in Ef as [Hin Hf]. apply Nat.eqb_eq in Hf.
  cbn [view]. assert (live f = false) as ->; [|done].
  unfold loadEffect in Hin. cbn [inFlight] in Hin.
  destruct (invalidId (pidOf routeId)).
  - by apply In_stale in Hin.
  - apply in_app_or in Hin as [Hin | [<- | []]]; [by apply In_stale in Hin |].
    simpl in Hf. lia.
Qed.

Lemma late_response_ignored_witness :
  view (complete 0 (Some cat) (navigateTo (Some "2") (mount (Some "1"))))
  = view (navigateTo (Some "2") (mount (Some "1"))).
Proof.
  apply (late_response_ignored (mount (Some "1")) (Some "2") 0 (Some cat)).
  - vm_compute. reflexivity.
  - vm_compute. lia.
Defined.

(** Property X22: when the awaited fetch completes, the page shows its
    outcome and nothing else: with a photo, that photo, for the id of the
    current route, without error and without skeleton; with a failure, the
    message Photo not found and no photo. *)
Theorem awaited_fetch_is_shown (routeId : option string) (evs : list Event)
    (n : nat) (f : Fetch) (p : Photo) :
  List.find (λ f, Nat.eqb (fid f) n) (inFlight (run (mount routeId) evs)) = Some f →
  live f = true →
  fpid f = pid (run (mount routeId) evs)
  ∧ photo (view (run (mount routeId) (evs ++ [Resolved n p]))) = Some p
  ∧ err (view (run (mount routeId) (evs ++ [Resolved n p]))) = None
  ∧ loading (view (run (mount routeId) (evs ++ [Resolved n p]))) = false
  ∧ photo (view (run (mount routeId) (evs ++ [Rejected n]))) = None
  ∧ err (view (run (mount routeId) (evs ++ [Rejected n]))) = Some "Photo not found"
  ∧ loading (view (run (mount routeId) (evs ++ [Rejected n]))) = false.
Proof.
  intros Hf Hl. unfold run. rewrite !fold_left_app. fold (run (mount routeId) evs).
  destruct (inStep_run routeId evs) as (_ & _ & _ & H4 & H5).
  pose proof Hf as Hin. apply find_some in Hin as [Hin _].
  assert (In f (liveFetches (inFlight (run (mount routeId) evs)))) as Hlive
    by (unfold liveFetches; by apply filter_In).
  destruct H5 as [Hp He]; [intros E; by rewrite E in Hlive |].
  split.
  { rewrite Forall_forall in H4. by apply H4, list_elem_of_In. }
  simpl. unfold complete. rewrite Hf, Hl. unfold loading, noErr.
  cbn [view photo err]. by rewrite Hp, He.
Qed.

Lemma awaited_fetch_is_shown_witness :
  fpid {| fid := 1; fpid := JS.ofZ 2; live := true |}
    = pid (run (mount (Some "1")) [Navigate (Some "2")])
  ∧ photo (view (run (mount (Some "1")) ([Navigate (Some "2")] ++ [Resolved 1 dog])))
    = Some dog
  ∧ err (view (run (mount (Some "1")) ([Navigate (Some "2")] ++ [Resolved 1 dog])))
    = None
  ∧ loading (view (run (mount (Some "1")) ([Navigate (Some "2")] ++ [Resolved 1 dog])))
    = false
  ∧ photo (view (run (mount (Some "1")) ([Navigate (Some "2")] ++ [Rejected 1])))
    = None
  ∧ err (view (run (mount (Some "1")) ([Navigate (Some "2")] ++ [Rejected 1])))
    = Some "Photo not found"
  ∧ loading (view (run (mount (Some "1")) ([Navigate (Some "2")] ++ [Rejected 1])))
    = false.
Proof.
  apply (awaited_fetch_is_shown (Some "1") [Navigate (Some "2")] 1
           {| fid := 1; fpid := JS.ofZ 2; live := true |} dog).
  - vm_compute. reflexivity.
  - reflexivity.
Defined.

(** Property X23: going from a photo to a route whose id is not valid shows
    the error Invalid photo id and fetches nothing, but the photo that was
    on the page stays on it, next to the error; going to a valid id takes
    photo and error away and shows the skeleton until the fetch completes. *)
Theorem invalid_id_keeps_previous_photo (pg : Page) (routeId : option string) :
  JS.Object_is (pidOf routeId) (pid pg) = false →
  (invalidId (pidOf routeId) = true →
     err (view (navigateTo routeId pg)) = Some "Invalid photo id"
     ∧ photo (view (navigateTo routeId pg)) = photo (view pg)
     ∧ fetches (view (navigateTo routeId pg)) = fetches (view pg)
     ∧ started (navigateTo routeId pg) = started pg
     ∧ liveFetches (inFlight (navigateTo routeId pg)) = [])
  ∧ (invalidId (pidOf routeId) = false →
     err (view (navigateTo routeId pg)) = None
     ∧ photo (view (navigateTo routeId pg)) = None
     ∧ loading (view (navigateTo routeId pg)) = true
     ∧ fetches (view (navigateTo routeId pg)) = fetches (view pg) ++ [pidOf routeId]
     ∧ liveFetches (inFlight (navigateTo routeId pg)) =
         [{| fid := started pg; fpid := pidOf routeId; live := true |}]).
Proof.
  intros Hpid. unfold navigateTo. rewrite Hpid.
  unfold loadEffect, loadPhoto, loading, noErr. cbn [view inFlight started].
  split; intros ->; cbn [err photo fetches].
  - by rewrite liveFetches_stale.
  - split_and!; try done.
    unfold liveFetches. rewrite List.filter_app.
    fold (liveFetches (stale (inFlight pg))). by rewrite liveFetches_stale.
Qed.

Lemma invalid_id_keeps_previous_photo_witness :
  err (view (navigateTo (Some "abc") (run (mount (Some "1")) [Resolved 0 cat])))
    = Some "Invalid photo id"
  ∧ photo (view (navigateTo (Some "abc") (run (mount (Some "1")) [Resolved 0 cat])))
    = photo (view (run (mount (Some "1")) [Resolved 0 cat]))
  ∧ fetches (view (navigateTo (Some "abc") (run (mount (Some "1")) [Resolved 0 cat])))
    = fetches (view (run (mount (Some "1")) [Resolved 0 cat]))
  ∧ started (navigateTo (Some "abc") (run (mount (Some "1")) [Resolved 0 cat]))
    = started (run (mount (Some "1")) [Resolved 0 cat])
  ∧ liveFetches (inFlight (navigateTo (Some "abc")
                             (run (mount (Some "1")) [Resolved 0 cat]))) = [].
Proof.
  apply (proj1 (invalid_id_keeps_previous_photo
                  (run (mount (Some "1")) [Resolved 0 cat]) (Some "abc")
                  ltac:(vm_compute; reflexivity))).
  vm_compute. reflexivity.
Defined.


End DetailPageFacts.

(** ** The first load of the Gallery *)

Module FirstLoadFacts.
Import Gallery Spec Samples PaginationFacts.





End FirstLoadFacts.
